(** * open.mp C API generators: header generator and JSON emitter

    A shallow embedding of [tools/generate_single_header.js] (the header
    generator) and of its sibling script that writes [apidocs/api.json]
    (the JSON emitter), followed by the properties of the annotation
    parser, the grouping pass and the emitters.

    Conventions of the embedding:
    - a JavaScript string is the list of its UTF-16 code units ([list N]);
      [js "..."] is the string of an ASCII literal;
    - JavaScript numbers that are string positions are integers ([Z]),
      with [-1] for "not found";
    - [undefined] results are [None]; a thrown [TypeError] is the
      [TypeError] constructor of [result];
    - plain objects used as maps are association lists kept in property
      enumeration order, with the properties inherited from
      [Object.prototype] visible to reads;
    - [fs.appendFileSync] is explicit state passing on the contents of the
      output file. *)

From Stdlib Require Import String Ascii.
From Stdlib Require Import List ZArith NArith Lia Bool Permutation.
Import ListNotations.

Local Open Scope list_scope.

(** ** JavaScript strings *)

Module Str.

Definition jsstring := list N.

(** The string of an ASCII literal. *)
Definition js (s : string) : jsstring :=
  map N_of_ascii (list_ascii_of_string s).

(** The code unit of the double quote, written by its number. *)
Definition dq : jsstring := [34%N].

Definition eqb (a b : jsstring) : bool :=
  if list_eq_dec N.eq_dec a b then true else false.

(** [isPrefix pat s]: [pat] occurs in [s] at position 0. *)
Fixpoint isPrefix (pat s : jsstring) : bool :=
  match pat, s with
  | [], _ => true
  | _ :: _, [] => false
  | p :: pat', c :: s' => (p =? c)%N && isPrefix pat' s'
  end.

(** First position of [pat] in [s], counted from [i]. *)
Fixpoint search (pat s : jsstring) (i : nat) : option nat :=
  if isPrefix pat s then Some i
  else match s with
       | [] => None
       | _ :: s' => search pat s' (S i)
       end.

(** Positions given to [indexOf] and [substring] are clamped to
    [0 .. length]. *)
Definition clamp (len : nat) (z : Z) : nat :=
  Z.to_nat (Z.min (Z.max z 0) (Z.of_nat len)).

(** [String.prototype.indexOf(pat, from)]. *)
Definition indexOf (s pat : jsstring) (from : Z) : Z :=
  let k := clamp (length s) from in
  match search pat (skipn k s) k with
  | Some i => Z.of_nat i
  | None => (-1)%Z
  end.

(** [String.prototype.substring(a, b)]: both ends clamped, then swapped
    when out of order. *)
Definition substring (s : jsstring) (a b : Z) : jsstring :=
  let a' := clamp (length s) a in
  let b' := clamp (length s) b in
  let from := Nat.min a' b' in
  let to := Nat.max a' b' in
  firstn (to - from) (skipn from s).

(** [String.prototype.replace(pat, rep)] for a string pattern: the first
    occurrence only.  The only replacement text used by the generators is
    the empty string, so no [$] pattern is expanded. *)
Definition replace (s pat rep : jsstring) : jsstring :=
  match search pat s 0 with
  | None => s
  | Some i => firstn i s ++ rep ++ skipn (i + length pat) s
  end.

Definition startsWith (s pat : jsstring) : bool := isPrefix pat s.

Definition endsWith (s pat : jsstring) : bool := isPrefix (rev pat) (rev s).

(** White space and line terminators removed by [trim]. *)
Definition isWhiteSpace (c : N) : bool :=
  existsb (N.eqb c)
    [9; 10; 11; 12; 13; 32; 160; 5760; 8232; 8233; 8239; 8287; 12288; 65279]%N
  || ((8192 <=? c) && (c <=? 8202))%N.

Fixpoint trimStart (s : jsstring) : jsstring :=
  match s with
  | [] => []
  | c :: s' => if isWhiteSpace c then trimStart s' else s
  end.

Definition trimEnd (s : jsstring) : jsstring := rev (trimStart (rev s)).

(** [String.prototype.trim()]. *)
Definition trim (s : jsstring) : jsstring := trimEnd (trimStart s).

(** [split_go sep s skip] scans [s] from the left; [skip] counts the code
    units of a separator already matched that are still to be passed.  It
    returns the segment being read and the segments after it. *)
Fixpoint split_go (sep s : jsstring) (skip : nat)
  : jsstring * list jsstring :=
  match s with
  | [] => ([], [])
  | c :: s' =>
      match skip with
      | S k => split_go sep s' k
      | O =>
          if isPrefix sep s
          then ([], let (seg, segs) := split_go sep s' (length sep - 1) in
                    seg :: segs)
          else let (seg, segs) := split_go sep s' 0 in (c :: seg, segs)
      end
  end.

(** [String.prototype.split(sep)] for a non-empty separator: the segments
    between the occurrences of [sep], found left to right without overlap;
    the empty string splits into one empty segment. *)
Definition split (s sep : jsstring) : list jsstring :=
  let (seg, segs) := split_go sep s 0 in seg :: segs.

(** [Array.prototype.join(sep)] on an array of strings. *)
Fixpoint join (l : list jsstring) (sep : jsstring) : jsstring :=
  match l with
  | [] => []
  | [x] => x
  | x :: l' => x ++ sep ++ join l' sep
  end.

(** Prepending to the first segment of a split, used to state how [split]
    unfolds. *)
Definition cons_head (c : N) (l : list jsstring) : list jsstring :=
  match l with
  | [] => [[c]]
  | h :: t => (c :: h) :: t
  end.

Definition app_head (a : jsstring) (l : list jsstring) : list jsstring :=
  match l with
  | [] => [a]
  | h :: t => (a ++ h) :: t
  end.

End Str.

Import Str.
Arguments js _%_string.

(** ** JavaScript values and plain objects *)

Module Obj.

(** The properties every plain object inherits from [Object.prototype]. *)
Inductive proto_prop :=
| P_constructor | P_defineGetter | P_defineSetter | P_hasOwnProperty
| P_lookupGetter | P_lookupSetter | P_isPrototypeOf
| P_propertyIsEnumerable | P_toString | P_valueOf | P_proto
| P_toLocaleString.

Definition proto_names : list (jsstring * proto_prop) :=
  [ (js "constructor", P_constructor);
    (js "__defineGetter__", P_defineGetter);
    (js "__defineSetter__", P_defineSetter);
    (js "hasOwnProperty", P_hasOwnProperty);
    (js "__lookupGetter__", P_lookupGetter);
    (js "__lookupSetter__", P_lookupSetter);
    (js "isPrototypeOf", P_isPrototypeOf);
    (js "propertyIsEnumerable", P_propertyIsEnumerable);
    (js "toString", P_toString);
    (js "valueOf", P_valueOf);
    (js "__proto__", P_proto);
    (js "toLocaleString", P_toLocaleString) ].

(** Own properties of an object, in enumeration order. *)
Definition obj (A : Type) := list (jsstring * A).

Fixpoint own {A} (o : obj A) (k : jsstring) : option A :=
  match o with
  | [] => None
  | (k', v) :: o' => if Str.eqb k' k then Some v else own o' k
  end.

Definition inherited (k : jsstring) : option proto_prop := own proto_names k.

(** The values a type slot can hold: a string, or what a read of an
    inherited property returns (a built-in function, or
    [Object.prototype] itself for [__proto__]). *)
Inductive value :=
| Str (s : jsstring)
| Proto (p : proto_prop).

Definition proto_function_name (p : proto_prop) : jsstring :=
  match p with
  | P_constructor => js "Object"
  | P_defineGetter => js "__defineGetter__"
  | P_defineSetter => js "__defineSetter__"
  | P_hasOwnProperty => js "hasOwnProperty"
  | P_lookupGetter => js "__lookupGetter__"
  | P_lookupSetter => js "__lookupSetter__"
  | P_isPrototypeOf => js "isPrototypeOf"
  | P_propertyIsEnumerable => js "propertyIsEnumerable"
  | P_toString => js "toString"
  | P_valueOf => js "valueOf"
  | P_proto => []
  | P_toLocaleString => js "toLocaleString"
  end.

(** [String(v)], as used by template literals and by property keys. *)
Definition toStr (v : value) : jsstring :=
  match v with
  | Str s => s
  | Proto P_proto => js "[object Object]"
  | Proto p => js "function " ++ proto_function_name p ++ js "() { [native code] }"
  end.

(** The empty string is the only falsy value of [value]. *)
Definition truthy (v : value) : bool :=
  match v with
  | Str [] => false
  | _ => true
  end.

(** [tbl[key]] on an object whose own properties are strings: own
    properties first, then the prototype; [None] is [undefined]. *)
Definition get (tbl : obj jsstring) (key : value) : option value :=
  let k := toStr key in
  match own tbl k with
  | Some s => Some (Str s)
  | None => option_map Proto (inherited k)
  end.

(** [tbl[key] || key]. *)
Definition get_or_self (tbl : obj jsstring) (key : value) : value :=
  match get tbl key with
  | Some v => if truthy v then v else key
  | None => key
  end.

Definition isDigit (c : N) : bool := ((48 <=? c) && (c <=? 57))%N.

Definition decimal (k : jsstring) : N :=
  fold_left (fun acc c => acc * 10 + (c - 48))%N k 0%N.

(** Array-index keys: canonical decimal strings of [0 .. 2^32 - 2].  They
    are enumerated first, in ascending order. *)
Definition arrayIndex (k : jsstring) : option N :=
  match k with
  | [] => None
  | c :: k' =>
      if forallb isDigit k
         && (negb (c =? 48)%N || match k' with [] => true | _ => false end)
         && (length k <=? 10)%nat
         && (decimal k <=? 4294967294)%N
      then Some (decimal k) else None
  end.

(** Creation of the own property [k], which [o] does not have yet: an
    array index goes to its place among the array indices, any other key
    goes last. *)
Fixpoint define {A} (o : obj A) (k : jsstring) (v : A) : obj A :=
  match arrayIndex k with
  | None => o ++ [(k, v)]
  | Some n =>
      match o with
      | [] => [(k, v)]
      | (k', v') :: o' =>
          match arrayIndex k' with
          | Some n' => if (n' <? n)%N then (k', v') :: define o' k v
                       else (k, v) :: o
          | None => (k, v) :: o
          end
      end
  end.

(** Assignment to the own property [k], which [o] has. *)
Fixpoint update {A} (o : obj A) (k : jsstring) (v : A) : obj A :=
  match o with
  | [] => []
  | (k', v') :: o' =>
      if Str.eqb k' k then (k', v) :: o' else (k', v') :: update o' k v
  end.

Definition Object_entries {A} (o : obj A) : list (jsstring * A) := o.

Definition Object_keys {A} (o : obj A) : list jsstring := map fst o.

End Obj.

Import Obj.

(** ** Exceptions and the output file *)

Inductive result (A : Type) :=
| Ok (a : A)
| TypeError.

Arguments Ok {A} a.
Arguments TypeError {A}.

Definition bind {A B} (r : result A) (k : A -> result B) : result B :=
  match r with
  | Ok a => k a
  | TypeError => TypeError
  end.

Notation "'try' x <- r ;; k" := (bind r (fun x => k))
  (at level 61, x pattern, r at next level, right associativity).

(** Contents of the output file. *)
Definition file := jsstring.

(** [fs.appendFileSync(OUTPUT_FILE, data)]. *)
Definition appendFileSync (out : file) (data : jsstring) : file := out ++ data.

(** [l.forEach(f)] for a callback [f] that appends to the output file. *)
Definition forEach {A} (l : list A) (f : A -> file -> file) (out : file) : file :=
  fold_left (fun o x => f x o) l out.

Definition nl : jsstring := [10%N].

(** The records built by both parsers. *)
Record Param := { param_name : jsstring; param_type : value }.

Record Api := { ret : value; name : jsstring; params : list Param }.

(** [a.filter(Boolean)] on an array of objects and [undefined]s. *)
Fixpoint filter_Boolean {A} (l : list (option A)) : list A :=
  match l with
  | [] => []
  | Some x :: l' => x :: filter_Boolean l'
  | None :: l' => filter_Boolean l'
  end.

(** ** The header generator, [tools/generate_single_header.js] *)

Module Header.

Definition API_PREFIX : jsstring := js "OMP_CAPI(".

Definition TYPE_MAPPINGS_function : obj jsstring :=
  [ (js "StringCharPtr", js "const char*");
    (js "objectPtr", js "void*");
    (js "voidPtr", js "void*");
    (js "OutputStringViewPtr", js "struct CAPIStringView*");
    (js "OutputStringBufferPtr", js "struct CAPIStringBuffer*");
    (js "ComponentVersion", js "struct ComponentVersion") ].

Definition TYPE_MAPPINGS_event : obj jsstring :=
  [ (js "CAPIStringView", js "struct CAPIStringView") ].

Definition convertFunctionArgType (type : value) : value :=
  get_or_self TYPE_MAPPINGS_function type.

Definition convertEventArgType (type : value) : value :=
  get_or_self TYPE_MAPPINGS_event type.

Definition parseParameter (paramString : jsstring) : option Param :=
  let parts := split (trim paramString) (js " ") in
  if (length parts <? 2)%nat then None
  else Some {| param_name := nth 1 parts [];
               param_type := convertFunctionArgType (Str (nth 0 parts [])) |}.

Record Parsed := { group : jsstring; api : Api }.

(** [rest] is [undefined] when the line has no [", "] after the prefix;
    [rest.indexOf] then throws.  [split] never returns an empty array, so
    [group] is always a string. *)
Definition parseAPILine (line : jsstring) : result Parsed :=
  let content := replace line API_PREFIX [] in
  match split content (js ", ") with
  | fullName :: rest :: _ =>
      match split fullName (js "_") with
      | group :: nameParts =>
          let name := join nameParts (js "_") in
          let returnTypeEnd := indexOf rest (js "(") 0 in
          let returnType := substring rest 0 returnTypeEnd in
          let paramsStart :=
            (indexOf content (js "(") (indexOf content returnType 0) + 1)%Z in
          let paramsEnd := indexOf content (js ")") 0 in
          let paramsString := substring content paramsStart paramsEnd in
          let parameters :=
            filter_Boolean (map parseParameter (split paramsString (js ", "))) in
          Ok {| group := group;
                api := {| ret := convertFunctionArgType (Str returnType);
                          name := name;
                          params := parameters |} |}
      | [] => TypeError
      end
  | _ => TypeError
  end.

(** The local constant [paramsString] of [parseAPILine] as a function of
    the line, for the lines on which [rest] is defined. *)
Definition paramsString_of (line : jsstring) : option jsstring :=
  let content := replace line API_PREFIX [] in
  match split content (js ", ") with
  | _ :: rest :: _ =>
      let returnTypeEnd := indexOf rest (js "(") 0 in
      let returnType := substring rest 0 returnTypeEnd in
      let paramsStart :=
        (indexOf content (js "(") (indexOf content returnType 0) + 1)%Z in
      let paramsEnd := indexOf content (js ")") 0 in
      Some (substring content paramsStart paramsEnd)
  | _ => None
  end.

(** The local constant [parts] of [parseParameter]. *)
Definition parts_of (paramString : jsstring) : list jsstring :=
  split (trim paramString) (js " ").

(** A file is the list of its lines, as [readline] yields them. *)
Fixpoint processFile (lines : list jsstring) : result (list Parsed) :=
  match lines with
  | [] => Ok []
  | line :: more =>
      if startsWith line API_PREFIX
      then try r <- parseAPILine line ;;
           try apis <- processFile more ;;
           Ok (r :: apis)
      else processFile more
  end.

(** [if (!apisByGroup[group]) apisByGroup[group] = [];
     apisByGroup[group].push(api)].  A read of a key that is not an own
    property but is inherited yields a built-in value, which is truthy and
    has no [push].  The array of a group is reachable from this object
    only, so [push] is an update of the property. *)
Definition push_api (apisByGroup : obj (list Api)) (group : jsstring) (api : Api)
  : result (obj (list Api)) :=
  match own apisByGroup group with
  | Some functions => Ok (update apisByGroup group (functions ++ [api]))
  | None =>
      match inherited group with
      | Some _ => TypeError
      | None => Ok (define apisByGroup group [api])
      end
  end.

(** The loop [for (const { group, api } of apis)]. *)
Fixpoint push_all (apisByGroup : obj (list Api)) (apis : list Parsed)
  : result (obj (list Api)) :=
  match apis with
  | [] => Ok apisByGroup
  | r :: more =>
      try o <- push_api apisByGroup (group r) (api r) ;;
      push_all o more
  end.

(** The directory tree under [CAPI_DIR]: the relative paths that
    [readdirSync] lists, in its order, each with the lines of the file. *)
Definition tree := list (jsstring * list jsstring).

(** The loop [for (const file of files)]. *)
Fixpoint collect_files (files : tree) (apisByGroup : obj (list Api))
  : result (obj (list Api)) :=
  match files with
  | [] => Ok apisByGroup
  | (_, lines) :: more =>
      try apis <- processFile lines ;;
      try o <- push_all apisByGroup apis ;;
      collect_files more o
  end.

Definition collectAPIs (dir : tree) : result (obj (list Api)) :=
  let files := filter (fun f => endsWith (fst f) (js "APIs.cpp")) dir in
  collect_files files [].

(** The text of one parameter in a typedef, and the local constant
    [params] of [writeFunctionTypeDefinitions]. *)
Definition typedef_param (param : Param) : jsstring :=
  toStr (param_type param) ++ js " " ++ param_name param.

Definition typedef_params (func : Api) : jsstring :=
  join (map typedef_param (params func)) (js ", ").

Definition writeFunctionTypeDefinitions (apis : obj (list Api)) (out : file)
  : file :=
  forEach (Object_entries apis) (fun '(group, functions) out =>
    let out := appendFileSync out
      (nl ++ nl ++ js "// " ++ group ++ js " function type definitions" ++ nl) in
    forEach functions (fun func out =>
      let params := typedef_params func in
      appendFileSync out
        (js "typedef " ++ toStr (ret func) ++ js " (" ++ js "*" ++ group
           ++ js "_" ++ name func ++ js "_t)(" ++ params ++ js ");" ++ nl))
      out) out.

(** The event schema, [apidocs/events.json]. *)
Record EventArg := { arg_name : jsstring; arg_type : jsstring }.

Record Event := { event_name : jsstring; event_args : list EventArg }.

Definition event_field (param : EventArg) : jsstring :=
  js "        " ++ toStr (convertEventArgType (Str (arg_type param)))
    ++ js "* " ++ arg_name param ++ js ";".

Definition writeEventDefinitions (events : obj (list Event)) (out : file)
  : file :=
  let out :=
    forEach (Object_entries events) (fun '(group, eventList) out =>
      let out := appendFileSync out
        (nl ++ nl ++ js "// " ++ group
           ++ js " event type and arguments definitions") in
      forEach eventList (fun event out =>
        let args := join (map event_field (event_args event)) nl in
        appendFileSync out
          (nl ++ js "struct EventArgs_" ++ event_name event ++ js " {" ++ nl
           ++ js "    int size;" ++ nl
           ++ js "    struct {" ++ nl
           ++ args ++ nl
           ++ js "    } *list;" ++ nl
           ++ js "};" ++ nl
           ++ js "typedef bool (" ++ js "*EventCallback_" ++ event_name event
           ++ js ")(struct EventArgs_" ++ event_name event ++ js " args);"
           ++ nl))
        out) out in
  appendFileSync out nl.

(** The fixed opening of the initializer, up to the check of the
    sentinel symbol. *)
Definition INITIALIZER_HEAD : jsstring :=
  nl
  ++ js "static bool omp_initialize_capi(struct OMPAPI_t* ompapi) {" ++ nl
  ++ js "#if defined(WIN32) || defined(_WIN32) || defined(__WIN32__)" ++ nl
  ++ js "    void* capi_lib = LIBRARY_OPEN(" ++ dq ++ js "./components/$CAPI.dll"
  ++ dq ++ js ");" ++ nl
  ++ js "#else" ++ nl
  ++ js "    void* capi_lib = LIBRARY_OPEN(" ++ dq ++ js "./components/$CAPI.so"
  ++ dq ++ js ");" ++ nl
  ++ js "#endif" ++ nl
  ++ nl
  ++ js "    // Check if library was loaded successfully" ++ nl
  ++ js "    if (!capi_lib)" ++ nl
  ++ js "    {" ++ nl
  ++ js "        return false;" ++ nl
  ++ js "    }" ++ nl
  ++ nl
  ++ js "    // Verify one of the core C apis is available" ++ nl
  ++ js "    ompapi->Core.TickCount = (Core_TickCount_t)LIBRARY_GET_ADDR(capi_lib, "
  ++ dq ++ js "Core_TickCount" ++ dq ++ js ");" ++ nl
  ++ nl
  ++ js "    if (!ompapi->Core.TickCount)" ++ nl
  ++ js "    {" ++ nl
  ++ js "        return false;" ++ nl
  ++ js "    }" ++ nl.

Definition writeInitializationFunction (apis : obj (list Api)) (out : file)
  : file :=
  let out := appendFileSync out INITIALIZER_HEAD in
  let out :=
    forEach (Object_entries apis) (fun '(group, functions) out =>
      let out := appendFileSync out
        (nl ++ js "    // Retrieve " ++ group ++ js " functions" ++ nl) in
      forEach functions (fun func out =>
        appendFileSync out
          (js "    ompapi->" ++ group ++ js "." ++ name func ++ js " = ("
           ++ group ++ js "_" ++ name func ++ js "_t)LIBRARY_GET_ADDR(capi_lib, "
           ++ dq ++ group ++ js "_" ++ name func ++ dq ++ js ");" ++ nl))
        out) out in
  appendFileSync out (nl ++ js "    return true;" ++ nl ++ js "};" ++ nl).

Definition tab : jsstring := [9%N].

Definition ENTITY_TYPES : list jsstring :=
  [ js "Player"; js "Vehicle"; js "Menu"; js "TextDraw"; js "TextLabel";
    js "Object"; js "PlayerObject"; js "PlayerTextLabel3D";
    js "PlayerTextDraw"; js "Class"; js "GangZone"; js "Pickup"; js "NPC" ].

Definition HEADER_TEMPLATE : jsstring :=
  concat
    [ js "#ifndef OMPCAPI_H" ++ nl;
      js "#define OMPCAPI_H" ++ nl;
      nl;
      js "#include <stdint.h>" ++ nl;
      js "#include <stdbool.h>" ++ nl;
      nl;
      js "#ifndef CAPI_COMPONENT_BUILD" ++ nl;
      js "#if defined(WIN32) || defined(_WIN32) || defined(__WIN32__)" ++ nl;
      js "#include <Windows.h>" ++ nl;
      js "#define LIBRARY_OPEN(path) LoadLibrary(path)" ++ nl;
      js "#define LIBRARY_GET_ADDR(lib, symbol) GetProcAddress((HMODULE)lib, symbol)" ++ nl;
      js "#else" ++ nl;
      js "#include <dlfcn.h>" ++ nl;
      js "#define LIBRARY_OPEN(path) dlopen(path, RTLD_LAZY | RTLD_LOCAL)" ++ nl;
      js "#define LIBRARY_GET_ADDR dlsym" ++ nl;
      js "#endif" ++ nl;
      js "#endif" ++ nl;
      nl;
      js "#if defined(WIN32) || defined(_WIN32) || defined(__WIN32__)" ++ nl;
      js "#define OMP_API_EXPORT __declspec(dllexport)" ++ nl;
      js "#else" ++ nl;
      js "#define OMP_API_EXPORT __attribute__((visibility(" ++ dq ++ js "default" ++ dq ++ js ")))" ++ nl;
      js "#endif" ++ nl;
      nl;
      js "// Events" ++ nl;
      nl;
      js "enum EventPriorityType" ++ nl;
      js "{" ++ nl;
      tab ++ js "EventPriorityType_Highest," ++ nl;
      tab ++ js "EventPriorityType_FairlyHigh," ++ nl;
      tab ++ js "EventPriorityType_Default," ++ nl;
      tab ++ js "EventPriorityType_FairlyLow," ++ nl;
      tab ++ js "EventPriorityType_Lowest," ++ nl;
      js "};" ++ nl;
      nl;
      js "struct EventArgs_Common" ++ nl;
      js "{" ++ nl;
      tab ++ js "int size;" ++ nl;
      tab ++ js "void** list;" ++ nl;
      js "};" ++ nl;
      nl;
      js "typedef bool (" ++ js "*EventCallback_Common)(struct EventArgs_Common* args);" ++ nl;
      nl;
      js "// Components" ++ nl;
      nl;
      js "struct ComponentVersion" ++ nl;
      js "{" ++ nl;
      tab ++ js "uint8_t major; ///< MAJOR version when you make incompatible API changes" ++ nl;
      tab ++ js "uint8_t minor; ///< MINOR version when you add functionality in a backwards compatible manner" ++ nl;
      tab ++ js "uint8_t patch; ///< PATCH version when you make backwards compatible bug fixes" ++ nl;
      tab ++ js "uint16_t prerel; ///< PRE-RELEASE version" ++ nl;
      js "};" ++ nl;
      nl;
      js "typedef void (" ++ js "*ComponentOnReadyCallback)();" ++ nl;
      js "typedef void (" ++ js "*ComponentOnResetCallback)();" ++ nl;
      js "typedef void (" ++ js "*ComponentOnFreeCallback)();" ++ nl;
      nl;
      js "/* Borrowed, read-only view. Callee does NOT copy or allocate." ++ nl;
      js "   Lifetime is tied to the source that produced it. */" ++ nl;
      js "struct CAPIStringView" ++ nl;
      js "{" ++ nl;
      tab ++ js "unsigned int len; /* string length */" ++ nl;
      tab ++ js "const char* data; /* may not be NUL-terminated */" ++ nl;
      js "};" ++ nl;
      nl;
      js "/* Caller-provided, writable buffer. Callee copies into this." ++ nl;
      js "   'capacity' is total space available in 'data'. Callee sets 'len' written. */" ++ nl;
      js "struct CAPIStringBuffer" ++ nl;
      js "{" ++ nl;
      tab ++ js "unsigned int capacity; /* bytes available in 'data' */" ++ nl;
      tab ++ js "unsigned int len; /* bytes actually written (out) */" ++ nl;
      tab ++ js "char* data; /* writable buffer supplied by the caller */" ++ nl;
      js "};" ++ nl;
      nl;
      js "#ifndef CAPI_COMPONENT_BUILD" ++ nl;
      nl ].

Definition writeEntityTypeDefinitions (out : file) : file :=
  let definitions :=
    join (map (fun type => js "typedef void* " ++ type ++ js ";" ++ nl)
            ENTITY_TYPES) [] in
  appendFileSync out definitions.

Definition writeStructDefinitions (apis : obj (list Api)) (out : file) : file :=
  forEach (Object_entries apis) (fun '(group, functions) out =>
    let out := appendFileSync out
      (nl ++ js "// " ++ group ++ js " functions" ++ nl
       ++ js "struct " ++ group ++ js "_t {" ++ nl) in
    let out :=
      forEach functions (fun func out =>
        appendFileSync out
          (js "    " ++ group ++ js "_" ++ name func ++ js "_t " ++ name func
           ++ js ";" ++ nl))
        out in
    appendFileSync out (js "};" ++ nl)) out.

Definition writeMainAPIStruct (apis : obj (list Api)) (out : file) : file :=
  let out := appendFileSync out
    (nl ++ js "// All APIs" ++ nl ++ js "struct OMPAPI_t {" ++ nl) in
  let out :=
    forEach (Object_keys apis) (fun group out =>
      appendFileSync out
        (js "    struct " ++ group ++ js "_t " ++ group ++ js ";" ++ nl))
      out in
  appendFileSync out (js "};" ++ nl).

Definition writeFooter (out : file) : file :=
  appendFileSync out
    (nl ++ js "#endif" ++ nl ++ nl ++ js "#endif /" ++ js "* OMPCAPI_H *"
     ++ js "/" ++ nl).

(** How the process ends: normally, or by [process.exit(1)] in the
    [catch] block. *)
Inductive exit := Completed | Exit1.

(** [generateHeader()].  [dir] is the tree under [CAPI_DIR]; [events] is
    what [require(EVENTS_FILE)] returns, [None] when it throws; [old] is
    the output file before the run, which [fs.writeFileSync] overwrites.
    The preamble and the entity aliases are written before the sources are
    read, so they stay in the file when a later step throws. *)
Definition generateHeader (dir : tree) (events : option (obj (list Event)))
  (old : file) : file * exit :=
  let out := HEADER_TEMPLATE in
  let out := writeEntityTypeDefinitions out in
  match collectAPIs dir with
  | TypeError => (out, Exit1)
  | Ok apis =>
      match events with
      | None => (out, Exit1)
      | Some events =>
          let out := writeFunctionTypeDefinitions apis out in
          let out := writeEventDefinitions events out in
          let out := writeStructDefinitions apis out in
          let out := writeMainAPIStruct apis out in
          let out := writeInitializationFunction apis out in
          let out := writeFooter out in
          (out, Completed)
      end
  end.

End Header.

(** ** The JSON emitter, the script that writes [apidocs/api.json] *)

Module Json.

Definition TYPE_MAPPINGS : obj jsstring :=
  [ (js "StringCharPtr", js "const char*");
    (js "objectPtr", js "void*");
    (js "voidPtr", js "void*");
    (js "OutputStringViewPtr", js "CAPIStringView*");
    (js "OutputStringBufferPtr", js "CAPIStringBuffer*") ].

Definition API_PREFIX : jsstring := js "OMP_CAPI(".

Definition convertTypeName (type : value) : value :=
  get_or_self TYPE_MAPPINGS type.

Definition parseParameter (paramString : jsstring) : option Param :=
  let parts := split (trim paramString) (js " ") in
  if (length parts <? 2)%nat then None
  else Some {| param_name := nth 1 parts [];
               param_type := convertTypeName (Str (nth 0 parts [])) |}.

Record Parsed := { component : jsstring; api : Api }.

Definition parseAPILine (line : jsstring) : result Parsed :=
  let content := replace line API_PREFIX [] in
  match split content (js ", ") with
  | apiName :: rest :: _ =>
      let componentName := nth 0 (split apiName (js "_")) [] in
      let returnTypeEnd := indexOf rest (js "(") 0 in
      let returnType := substring rest 0 returnTypeEnd in
      let paramsStart :=
        (indexOf content (js "(") (indexOf content returnType 0) + 1)%Z in
      let paramsEnd := indexOf content (js ")") 0 in
      let paramsString := substring content paramsStart paramsEnd in
      let parameters :=
        filter_Boolean (map parseParameter (split paramsString (js ", "))) in
      Ok {| component := componentName;
            api := {| ret := convertTypeName (Str returnType);
                      name := apiName;
                      params := parameters |} |}
  | _ => TypeError
  end.

Fixpoint processFile (lines : list jsstring) : result (list Parsed) :=
  match lines with
  | [] => Ok []
  | line :: more =>
      if startsWith line API_PREFIX
      then try r <- parseAPILine line ;;
           try apis <- processFile more ;;
           Ok (r :: apis)
      else processFile more
  end.

(** The selected files; [path.join(CAPI_DIR, file)] only changes the name
    under which a file is opened. *)
Definition getAllAPIFiles (dir : Header.tree) : Header.tree :=
  filter (fun f => endsWith (fst f) (js "APIs.cpp")) dir.

Definition push_api (apisByComponent : obj (list Api)) (component : jsstring)
  (api : Api) : result (obj (list Api)) :=
  match own apisByComponent component with
  | Some functions => Ok (update apisByComponent component (functions ++ [api]))
  | None =>
      match inherited component with
      | Some _ => TypeError
      | None => Ok (define apisByComponent component [api])
      end
  end.

(** The loop [for (const { component, api } of apis)]. *)
Fixpoint push_all (apisByComponent : obj (list Api)) (apis : list Parsed)
  : result (obj (list Api)) :=
  match apis with
  | [] => Ok apisByComponent
  | r :: more =>
      try o <- push_api apisByComponent (component r) (api r) ;;
      push_all o more
  end.

(** The loop [for (const filePath of apiFiles)]. *)
Fixpoint build_files (apiFiles : Header.tree) (apisByComponent : obj (list Api))
  : result (obj (list Api)) :=
  match apiFiles with
  | [] => Ok apisByComponent
  | (_, lines) :: more =>
      try apis <- processFile lines ;;
      try o <- push_all apisByComponent apis ;;
      build_files more o
  end.

Definition buildAPIDocumentation (dir : Header.tree) : result (obj (list Api)) :=
  let apiFiles := getAllAPIFiles dir in
  build_files apiFiles [].

End Json.

(** ** Vocabulary of the statements *)

(** Well-formed annotation lines,
    [PREFIX(Group_Name, ReturnType(Type0 name0, Type1 name1, ...))]. *)
Module Grammar.

(** Code units of a word: no white space, comma or parenthesis. *)
Definition plain (c : N) : bool :=
  negb (isWhiteSpace c) && negb (existsb (N.eqb c) [44; 40; 41]%N).

Definition word (s : jsstring) : bool := forallb plain s.

Definition token (s : jsstring) : bool :=
  match s with
  | [] => false
  | _ => word s
  end.

(** A parameter of the line is a pair (type, name). *)
Definition pair_text (p : jsstring * jsstring) : jsstring :=
  fst p ++ js " " ++ snd p.

Definition params_text (ps : list (jsstring * jsstring)) : jsstring :=
  join (map pair_text ps) (js ", ").

(** The line with the text [region] between the parentheses. *)
Definition line_of (fullName returnType region : jsstring) : jsstring :=
  Header.API_PREFIX ++ fullName ++ js ", " ++ returnType ++ js "("
    ++ region ++ js "))".

Definition annotation (fullName returnType : jsstring)
  (ps : list (jsstring * jsstring)) : jsstring :=
  line_of fullName returnType (params_text ps).

Definition well_formed (fullName returnType : jsstring)
  (ps : list (jsstring * jsstring)) : bool :=
  word fullName && word returnType
  && forallb (fun p => token (fst p) && token (snd p)) ps.

End Grammar.

(** The records of a group in the grouped model. *)
Definition records_of (o : obj (list Api)) (g : jsstring) : list Api :=
  match own o g with
  | Some functions => functions
  | None => []
  end.

(** All records of the selected files, in processing order. *)
Fixpoint all_records (files : Header.tree) : result (list Header.Parsed) :=
  match files with
  | [] => Ok []
  | (_, lines) :: more =>
      try apis <- Header.processFile lines ;;
      try others <- all_records more ;;
      Ok (apis ++ others)
  end.

Definition selected (dir : Header.tree) : Header.tree :=
  filter (fun f => endsWith (fst f) (js "APIs.cpp")) dir.

(** A parameter token is kept when it has two words at least; the record
    built from a kept token. *)
Definition has_two_words (tok : jsstring) : bool :=
  (2 <=? length (Header.parts_of tok))%nat.

Definition param_of (tok : jsstring) : Param :=
  {| param_name := nth 1 (Header.parts_of tok) [];
     param_type :=
       Header.convertFunctionArgType (Str (nth 0 (Header.parts_of tok) [])) |}.

(** A table is closed when none of its results, and no inherited value,
    is looked up to anything. *)
Definition closed_table (tbl : obj jsstring) : bool :=
  forallb (fun kv => match get tbl (Str (snd kv)) with
                     | None => true
                     | Some _ => false
                     end) tbl
  && forallb (fun p => match get tbl (Proto p) with
                       | None => true
                       | Some _ => false
                       end)
       [P_constructor; P_defineGetter; P_defineSetter; P_hasOwnProperty;
        P_lookupGetter; P_lookupSetter; P_isPrototypeOf;
        P_propertyIsEnumerable; P_toString; P_valueOf; P_proto;
        P_toLocaleString].

(** A tree of two files, each with one annotation line for
    [Actor_Create]; the two records differ in their parameter. *)
Definition duplicate_tree : Header.tree :=
  [ (js "ActorAPIs.cpp", [js "OMP_CAPI(Actor_Create, objectPtr(int modelid))"]);
    (js "sub/ActorAPIs.cpp", [js "OMP_CAPI(Actor_Create, objectPtr(float x))"]) ].

Definition earlier_record : Api :=
  {| ret := Str (js "void*"); name := js "Create";
     params := [ {| param_name := js "modelid"; param_type := Str (js "int") |} ] |}.

Definition later_record : Api :=
  {| ret := Str (js "void*"); name := js "Create";
     params := [ {| param_name := js "x"; param_type := Str (js "float") |} ] |}.

(** The parts of the initializer text, in the order of its statements. *)
Module Initializer.

(** Opening of the function: the library is opened at the fixed relative
    path of the platform. *)
Definition open_library : jsstring :=
  nl
  ++ js "static bool omp_initialize_capi(struct OMPAPI_t* ompapi) {" ++ nl
  ++ js "#if defined(WIN32) || defined(_WIN32) || defined(__WIN32__)" ++ nl
  ++ js "    void* capi_lib = LIBRARY_OPEN(" ++ dq ++ js "./components/$CAPI.dll"
  ++ dq ++ js ");" ++ nl
  ++ js "#else" ++ nl
  ++ js "    void* capi_lib = LIBRARY_OPEN(" ++ dq ++ js "./components/$CAPI.so"
  ++ dq ++ js ");" ++ nl
  ++ js "#endif" ++ nl.

(** Failure when the library was not opened. *)
Definition open_check : jsstring :=
  nl
  ++ js "    // Check if library was loaded successfully" ++ nl
  ++ js "    if (!capi_lib)" ++ nl
  ++ js "    {" ++ nl
  ++ js "        return false;" ++ nl
  ++ js "    }" ++ nl.

(** Resolution of the symbol [name] of [group] into the field
    [group.name] of the dispatch table: one assignment, nothing else. *)
Definition resolve (group name : jsstring) : jsstring :=
  js "    ompapi->" ++ group ++ js "." ++ name ++ js " = ("
    ++ group ++ js "_" ++ name ++ js "_t)LIBRARY_GET_ADDR(capi_lib, "
    ++ dq ++ group ++ js "_" ++ name ++ dq ++ js ");" ++ nl.

(** Resolution of the sentinel symbol, and failure when it is null. *)
Definition resolve_sentinel : jsstring :=
  nl
  ++ js "    // Verify one of the core C apis is available" ++ nl
  ++ resolve (js "Core") (js "TickCount").

Definition sentinel_check : jsstring :=
  nl
  ++ js "    if (!ompapi->Core.TickCount)" ++ nl
  ++ js "    {" ++ nl
  ++ js "        return false;" ++ nl
  ++ js "    }" ++ nl.

(** The block of one group: a comment, then one resolution per record. *)
Definition group_block (entry : jsstring * list Api) : jsstring :=
  nl ++ js "    // Retrieve " ++ fst entry ++ js " functions" ++ nl
  ++ flat_map (fun func => resolve (fst entry) (name func)) (snd entry).

Definition return_true : jsstring :=
  nl ++ js "    return true;" ++ nl ++ js "};" ++ nl.

End Initializer.

(** The event schema entry [OnPlayerConnect] and the text emitted for
    it. *)
Definition OnPlayerConnect : Header.Event :=
  {| Header.event_name := js "OnPlayerConnect";
     Header.event_args :=
       [ {| Header.arg_name := js "playerid"; Header.arg_type := js "int" |};
         {| Header.arg_name := js "ip";
            Header.arg_type := js "CAPIStringView" |} ] |}.

Definition OnPlayerConnect_text : jsstring :=
  nl ++ js "struct EventArgs_OnPlayerConnect {" ++ nl
  ++ js "    int size;" ++ nl
  ++ js "    struct {" ++ nl
  ++ js "        int* playerid;" ++ nl
  ++ js "        struct CAPIStringView* ip;" ++ nl
  ++ js "    } *list;" ++ nl
  ++ js "};" ++ nl
  ++ js "typedef bool (" ++ js "*EventCallback_OnPlayerConnect)"
  ++ js "(struct EventArgs_OnPlayerConnect args);" ++ nl.

(** The text written for one event. *)
Definition event_text (event : Header.Event) : jsstring :=
  nl ++ js "struct EventArgs_" ++ Header.event_name event ++ js " {" ++ nl
  ++ js "    int size;" ++ nl
  ++ js "    struct {" ++ nl
  ++ join (map Header.event_field (Header.event_args event)) nl ++ nl
  ++ js "    } *list;" ++ nl
  ++ js "};" ++ nl
  ++ js "typedef bool (" ++ js "*EventCallback_" ++ Header.event_name event
  ++ js ")(struct EventArgs_" ++ Header.event_name event ++ js " args);"
  ++ nl.

Definition event_group_text (entry : jsstring * list Header.Event) : jsstring :=
  nl ++ nl ++ js "// " ++ fst entry
  ++ js " event type and arguments definitions"
  ++ flat_map event_text (snd entry).

(** The record of a parameter of the line: its name, and its type
    normalized through the function-signature table. *)
Definition normalized (p : jsstring * jsstring) : Param :=
  {| param_name := snd p;
     param_type := Header.convertFunctionArgType (Str (fst p)) |}.

Definition normalized_text (p : jsstring * jsstring) : jsstring :=
  toStr (Header.convertFunctionArgType (Str (fst p))) ++ js " " ++ snd p.

(** The lines of the selected files that start with the prefix, in
    processing order. *)
Definition annotation_lines (dir : Header.tree) : list jsstring :=
  filter (fun l => startsWith l Header.API_PREFIX)
    (flat_map snd (selected dir)).

(** Keys in the order of their first appearance. *)
Definition add_key (seen : list jsstring) (g : jsstring) : list jsstring :=
  if existsb (Str.eqb g) seen then seen else seen ++ [g].

Definition first_seen (gs : list jsstring) : list jsstring :=
  fold_left add_key gs [].

Definition is_index (k : jsstring) : bool :=
  match arrayIndex k with
  | Some _ => true
  | None => false
  end.

(** Array-index keys stand before all other keys, in ascending order of
    their numbers. *)
Fixpoint enumeration_ordered (ks : list jsstring) : bool :=
  match ks with
  | [] => true
  | k :: ks' =>
      match arrayIndex k with
      | Some n =>
          forallb (fun k' => match arrayIndex k' with
                             | Some n' => (n <=? n')%N
                             | None => true
                             end) ks'
      | None => forallb (fun k' => negb (is_index k')) ks'
      end && enumeration_ordered ks'
  end.

(** Two files with the groups [Vehicle], [Actor], [Vehicle], and their
    grouped model. *)
Definition two_group_tree : Header.tree :=
  [ (js "aAPIs.cpp", [ js "OMP_CAPI(Vehicle_Create, objectPtr(int id))";
                       js "OMP_CAPI(Actor_Create, objectPtr(int id))" ]);
    (js "bAPIs.cpp", [ js "OMP_CAPI(Vehicle_Destroy, bool(int id))" ]) ].

Definition two_group_model : obj (list Api) :=
  [ (js "Vehicle",
     [ {| ret := Str (js "void*"); name := js "Create";
          params := [ {| param_name := js "id";
                         param_type := Str (js "int") |} ] |};
       {| ret := Str (js "bool"); name := js "Destroy";
          params := [ {| param_name := js "id";
                         param_type := Str (js "int") |} ] |} ]);
    (js "Actor",
     [ {| ret := Str (js "void*"); name := js "Create";
          params := [ {| param_name := js "id";
                         param_type := Str (js "int") |} ] |} ]) ].

(** The texts of the sections of the header. *)
Definition entity_aliases : jsstring :=
  flat_map (fun type => js "typedef void* " ++ type ++ js ";" ++ nl)
    Header.ENTITY_TYPES.

Definition typedef_line (group : jsstring) (func : Api) : jsstring :=
  js "typedef " ++ toStr (ret func) ++ js " (" ++ js "*" ++ group ++ js "_"
    ++ name func ++ js "_t)(" ++ Header.typedef_params func ++ js ");" ++ nl.

Definition typedef_block (entry : jsstring * list Api) : jsstring :=
  nl ++ nl ++ js "// " ++ fst entry ++ js " function type definitions" ++ nl
  ++ flat_map (typedef_line (fst entry)) (snd entry).

Definition field_line (group : jsstring) (func : Api) : jsstring :=
  js "    " ++ group ++ js "_" ++ name func ++ js "_t " ++ name func
    ++ js ";" ++ nl.

Definition struct_block (entry : jsstring * list Api) : jsstring :=
  nl ++ js "// " ++ fst entry ++ js " functions" ++ nl
  ++ js "struct " ++ fst entry ++ js "_t {" ++ nl
  ++ flat_map (field_line (fst entry)) (snd entry)
  ++ js "};" ++ nl.

Definition table_line (group : jsstring) : jsstring :=
  js "    struct " ++ group ++ js "_t " ++ group ++ js ";" ++ nl.

Definition main_struct (apis : obj (list Api)) : jsstring :=
  nl ++ js "// All APIs" ++ nl ++ js "struct OMPAPI_t {" ++ nl
  ++ flat_map table_line (Object_keys apis)
  ++ js "};" ++ nl.

Definition footer : jsstring :=
  nl ++ js "#endif" ++ nl ++ nl ++ js "#endif /" ++ js "* OMPCAPI_H *"
  ++ js "/" ++ nl.

(** The whole header of a completed run. *)
Definition header_text (apis : obj (list Api))
  (events : obj (list Header.Event)) : jsstring :=
  Header.HEADER_TEMPLATE ++ entity_aliases
  ++ flat_map typedef_block (Object_entries apis)
  ++ flat_map event_group_text (Object_entries events) ++ nl
  ++ flat_map struct_block (Object_entries apis)
  ++ main_struct apis
  ++ Header.INITIALIZER_HEAD
  ++ flat_map Initializer.group_block (Object_entries apis)
  ++ Initializer.return_true
  ++ footer.

(** One function as the two documents describe it, and one group. *)
Definition same_function (g : jsstring) (h j : Api) : Prop :=
  map param_name (params h) = map param_name (params j)
  /\ (In 95%N (name j) -> name j = g ++ js "_" ++ name h)
  /\ (~ In 95%N (name j) -> name j = g /\ name h = []).

Definition same_group (x y : jsstring * list Api) : Prop :=
  fst x = fst y /\ Forall2 (same_function (fst x)) (snd x) (snd y).

(** One line as the two parsers record it. *)
Definition same_record (h : Header.Parsed) (j : Json.Parsed) : Prop :=
  Json.component j = Header.group h
  /\ same_function (Header.group h) (Header.api h) (Json.api j).

(** The record of a parameter of the line in the JSON document. *)
Definition json_normalized (p : jsstring * jsstring) : Param :=
  {| param_name := snd p;
     param_type := Json.convertTypeName (Str (fst p)) |}.

(** * Properties *)

(** ** Facts about the string operations *)

Section StringFacts.

Lemma eqb_eq (a b : jsstring) : Str.eqb a b = true <-> a = b.
Proof.
  unfold Str.eqb. destruct (list_eq_dec N.eq_dec a b); split; congruence.
Qed.

Lemma eqb_neq (a b : jsstring) : Str.eqb a b = false <-> a <> b.
Proof.
  unfold Str.eqb. destruct (list_eq_dec N.eq_dec a b); split; congruence.
Qed.

Lemma isPrefix_app (p t : jsstring) : isPrefix p (p ++ t) = true.
Proof.
  induction p as [|c p IH]; simpl; [reflexivity|].
  now rewrite N.eqb_refl, IH.
Qed.

Lemma isPrefix_inv (p s : jsstring) :
  isPrefix p s = true -> exists t, s = p ++ t.
Proof.
  revert s. induction p as [|c p IH]; intros s H.
  - now exists s.
  - destruct s as [|d s]; simpl in H; [discriminate|].
    apply andb_true_iff in H as [Hc Hp].
    apply N.eqb_eq in Hc. subst d.
    destruct (IH _ Hp) as [t ->]. now exists t.
Qed.

Lemma isPrefix_head (c0 x : N) (sep' s : jsstring) :
  x <> c0 -> isPrefix (c0 :: sep') (x :: s) = false.
Proof.
  intros H. simpl. destruct (N.eqb_spec c0 x); [congruence|reflexivity].
Qed.

(** *** [search] and [indexOf] *)

Lemma search_here (pat s : jsstring) (i : nat) :
  isPrefix pat s = true -> search pat s i = Some i.
Proof. intros H. destruct s; simpl; now rewrite H. Qed.

Lemma search_skip (c0 : N) (sep' a s : jsstring) (i : nat) :
  ~ In c0 a ->
  search (c0 :: sep') (a ++ s) i = search (c0 :: sep') s (i + length a).
Proof.
  revert i. induction a as [|x a IH]; intros i Hn.
  - simpl. now rewrite Nat.add_0_r.
  - change ((x :: a) ++ s) with (x :: (a ++ s)).
    cbn [search]. rewrite isPrefix_head by (intros ->; apply Hn; now left).
    rewrite IH by (intros Hin; apply Hn; now right).
    f_equal. simpl. lia.
Qed.

(** An occurrence at position [k] bounds the first occurrence. *)
Lemma search_before (pat : jsstring) (k : nat) (s : jsstring) (i : nat) :
  k <= length s -> isPrefix pat (skipn k s) = true ->
  exists j, search pat s i = Some j /\ i <= j <= i + k.
Proof.
  revert s i. induction k as [|k IH]; intros s i Hk Hp.
  - rewrite skipn_O in Hp. exists i. split; [now apply search_here|lia].
  - destruct s as [|c s]; [simpl in Hk; lia|].
    cbn [search]. destruct (isPrefix pat (c :: s)).
    + exists i. split; [reflexivity|lia].
    + simpl in Hk, Hp. destruct (IH s (S i)) as [j [Hj Hb]]; [lia|exact Hp|].
      exists j. split; [exact Hj|lia].
Qed.

Lemma clamp_id (len : nat) (k : nat) :
  k <= len -> clamp len (Z.of_nat k) = k.
Proof. intros H. unfold clamp. lia. Qed.

(** The first occurrence of a code unit, searched from any position
    before it. *)
Lemma indexOf_unit (c : N) (a b : jsstring) (from : nat) :
  ~ In c a -> from <= length a ->
  indexOf (a ++ c :: b) [c] (Z.of_nat from) = Z.of_nat (length a).
Proof.
  intros Hn Hf. unfold indexOf.
  rewrite clamp_id by (rewrite length_app; lia).
  rewrite skipn_app.
  replace (from - length a) with 0 by lia. rewrite skipn_O.
  rewrite search_skip.
  - rewrite search_here by (simpl; now rewrite N.eqb_refl).
    f_equal. rewrite length_skipn. lia.
  - intros Hin. apply Hn. rewrite <- (firstn_skipn from a).
    apply in_or_app. now right.
Qed.

Lemma indexOf_zero_before (s pat : jsstring) (k : nat) :
  k <= length s -> isPrefix pat (skipn k s) = true ->
  exists j, indexOf s pat 0 = Z.of_nat j /\ j <= k.
Proof.
  intros Hk Hp. unfold indexOf.
  change (clamp (length s) 0) with (clamp (length s) (Z.of_nat 0)).
  rewrite clamp_id by lia. rewrite skipn_O.
  destruct (search_before pat k s 0 Hk Hp) as [j [-> Hb]].
  exists j. split; [reflexivity|lia].
Qed.

Lemma substring_mid (a m b : jsstring) :
  substring (a ++ m ++ b) (Z.of_nat (length a))
            (Z.of_nat (length a + length m)) = m.
Proof.
  unfold substring.
  rewrite !clamp_id by (rewrite !length_app; lia).
  rewrite Nat.min_l, Nat.max_r by lia.
  rewrite skipn_app, skipn_all, Nat.sub_diag, skipn_O. simpl.
  replace (length a + length m - length a) with (length m + 0) by lia.
  rewrite firstn_app_2. simpl. apply app_nil_r.
Qed.

Lemma replace_prefix (pat t : jsstring) :
  replace (pat ++ t) pat [] = t.
Proof.
  unfold replace. rewrite search_here by apply isPrefix_app.
  simpl. rewrite skipn_app, skipn_all, Nat.sub_diag. reflexivity.
Qed.

End StringFacts.

(** ** Facts about [split], [join] and [trim] *)

Section SplitFacts.

Lemma split_go_skip (sep : jsstring) (k : nat) (s : jsstring) :
  k <= length s -> split_go sep s k = split_go sep (skipn k s) 0.
Proof.
  revert s. induction k as [|k IH]; intros s H.
  - now rewrite skipn_O.
  - destruct s as [|c s]; simpl in H; [lia|].
    simpl. apply IH. lia.
Qed.

Lemma split_nil (sep : jsstring) : split [] sep = [[]].
Proof. reflexivity. Qed.

Lemma split_sep (c0 : N) (sep' t : jsstring) :
  split ((c0 :: sep') ++ t) (c0 :: sep') = [] :: split t (c0 :: sep').
Proof.
  unfold split.
  change ((c0 :: sep') ++ t) with (c0 :: (sep' ++ t)).
  cbn [split_go].
  change (c0 :: (sep' ++ t)) with ((c0 :: sep') ++ t).
  rewrite isPrefix_app.
  replace (length (c0 :: sep') - 1) with (length sep') by (simpl; lia).
  rewrite split_go_skip by (rewrite length_app; lia).
  rewrite skipn_app, skipn_all, Nat.sub_diag, skipn_O. reflexivity.
Qed.

Lemma split_cons (sep : jsstring) (c : N) (s : jsstring) :
  isPrefix sep (c :: s) = false ->
  split (c :: s) sep = cons_head c (split s sep).
Proof.
  intros H. unfold split. cbn [split_go]. rewrite H.
  destruct (split_go sep s 0). reflexivity.
Qed.

Lemma split_not_nil (s sep : jsstring) : split s sep <> [].
Proof. unfold split. destruct (split_go sep s 0). discriminate. Qed.

(** A prefix without the first code unit of the separator stays in the
    first segment. *)
Lemma split_app_head (c0 : N) (sep' a s : jsstring) :
  ~ In c0 a ->
  split (a ++ s) (c0 :: sep') = app_head a (split s (c0 :: sep')).
Proof.
  induction a as [|x a IH]; intros Hn.
  - simpl. destruct (split s (c0 :: sep')) eqn:E; [|reflexivity].
    now apply split_not_nil in E.
  - change ((x :: a) ++ s) with (x :: (a ++ s)).
    rewrite split_cons by (apply isPrefix_head; intros ->; apply Hn; now left).
    rewrite IH by (intros Hin; apply Hn; now right).
    destruct (split s (c0 :: sep')); reflexivity.
Qed.

Lemma split_none (c0 : N) (sep' a : jsstring) :
  ~ In c0 a -> split a (c0 :: sep') = [a].
Proof.
  intros Hn. rewrite <- (app_nil_r a) at 1.
  rewrite split_app_head by exact Hn.
  rewrite split_nil. simpl. now rewrite app_nil_r.
Qed.

Lemma split_first (c0 : N) (sep' a t : jsstring) :
  ~ In c0 a ->
  split (a ++ (c0 :: sep') ++ t) (c0 :: sep') = a :: split t (c0 :: sep').
Proof.
  intros Hn. rewrite split_app_head by exact Hn.
  rewrite split_sep. simpl. now rewrite app_nil_r.
Qed.

(** [split] undoes [join] when no segment holds the first code unit of
    the separator. *)
Lemma split_join (c0 : N) (sep' : jsstring) (l : list jsstring) :
  l <> [] -> Forall (fun x => ~ In c0 x) l ->
  split (join l (c0 :: sep')) (c0 :: sep') = l.
Proof.
  induction l as [|x l IH]; intros Hne Hall; [congruence|].
  inversion Hall as [|? ? Hx Hl]; subst.
  destruct l as [|y l].
  - simpl. now apply split_none.
  - change (join (x :: y :: l) (c0 :: sep'))
      with (x ++ (c0 :: sep') ++ join (y :: l) (c0 :: sep')).
    rewrite split_first by exact Hx.
    f_equal. apply IH; [discriminate|exact Hl].
Qed.

Lemma join_cons_head (c : N) (l : list jsstring) (sep : jsstring) :
  l <> [] -> join (cons_head c l) sep = c :: join l sep.
Proof.
  destruct l as [|h t]; [congruence|]. intros _.
  destruct t; reflexivity.
Qed.

(** [join] undoes [split], for every non-empty separator. *)
Lemma join_split (c0 : N) (sep' s : jsstring) :
  join (split s (c0 :: sep')) (c0 :: sep') = s.
Proof.
  remember (length s) as n eqn:Hlen.
  revert s Hlen. induction n as [n IH] using lt_wf_ind. intros s Hlen.
  destruct s as [|c s]; [reflexivity|].
  destruct (isPrefix (c0 :: sep') (c :: s)) eqn:E.
  - apply isPrefix_inv in E as [t Ht]. rewrite Ht.
    rewrite split_sep.
    assert (Hrec : join (split t (c0 :: sep')) (c0 :: sep') = t).
    { apply (IH (length t)); [|reflexivity].
      subst n. rewrite Ht, length_app. simpl. lia. }
    destruct (split t (c0 :: sep')) as [|h l] eqn:Es;
      [now apply split_not_nil in Es|].
    change (join ([] :: h :: l) (c0 :: sep'))
      with ([] ++ (c0 :: sep') ++ join (h :: l) (c0 :: sep')).
    now rewrite Hrec.
  - rewrite split_cons by exact E.
    rewrite join_cons_head by apply split_not_nil.
    f_equal. apply (IH (length s)); [|reflexivity].
    subst n. simpl. lia.
Qed.

(** The first segment of a split that yields several segments does not
    hold the separator's first code unit, when the separator is a single
    code unit. *)
Lemma split_unit_tail (c : N) (s : jsstring) :
  In c s <-> tl (split s [c]) <> [].
Proof.
  induction s as [|x s IH].
  - simpl. split; [tauto|congruence].
  - destruct (N.eq_dec x c) as [->|Hx].
    + change (c :: s) with ([c] ++ s). rewrite split_sep. simpl.
      split; [intros _; apply split_not_nil|now left].
    + rewrite split_cons by (apply isPrefix_head; congruence).
      destruct (split s [c]) as [|h t] eqn:E; [now apply split_not_nil in E|].
      simpl in *. rewrite <- IH. split; [intros [?|?]; [congruence|assumption]|now right].
Qed.

(** *** [trim] *)

Lemma trimStart_head (c : N) (s : jsstring) :
  isWhiteSpace c = false -> trimStart (c :: s) = c :: s.
Proof. intros H. simpl. now rewrite H. Qed.

End SplitFacts.

(** ** The signature parser *)

Section Parser.

Import Header.

Lemma parseParameter_kept (tok : jsstring) :
  has_two_words tok = true -> parseParameter tok = Some (param_of tok).
Proof.
  unfold has_two_words, parseParameter, param_of, parts_of. intros H.
  destruct (Nat.ltb_spec (length (split (trim tok) (js " "))) 2) as [Hlt|_].
  - apply Nat.leb_le in H. lia.
  - reflexivity.
Qed.

Lemma parseParameter_dropped (tok : jsstring) :
  has_two_words tok = false -> parseParameter tok = None.
Proof.
  unfold has_two_words, parseParameter, parts_of. intros H.
  destruct (Nat.ltb_spec (length (split (trim tok) (js " "))) 2) as [_|Hge].
  - reflexivity.
  - apply Nat.leb_gt in H. lia.
Qed.

Lemma filter_Boolean_parse (toks : list jsstring) :
  filter_Boolean (map parseParameter toks)
  = map param_of (filter has_two_words toks).
Proof.
  induction toks as [|tok toks IH]; [reflexivity|].
  simpl. destruct (has_two_words tok) eqn:E.
  - rewrite parseParameter_kept by exact E. simpl. now rewrite IH.
  - rewrite parseParameter_dropped by exact E. exact IH.
Qed.

(** The record is produced whenever [rest] is defined, and its
    parameters are read off [paramsString]. *)
Lemma parseAPILine_params (line ps : jsstring) :
  paramsString_of line = Some ps ->
  exists r, parseAPILine line = Ok r
            /\ params (api r)
               = filter_Boolean (map parseParameter (split ps (js ", "))).
Proof.
  unfold paramsString_of, parseAPILine.
  destruct (split (replace line API_PREFIX []) (js ", ")) as [|fullName [|rest l]];
    try discriminate.
  intros H. injection H as <-.
  destruct (split fullName (js "_")) as [|g nameParts] eqn:E;
    [now apply split_not_nil in E|].
  eexists. split; reflexivity.
Qed.

End Parser.

(** C2: the line
    [OMP_CAPI(Actor_Create, objectPtr(int modelid, float x, float y, float z, float rotation, int* id))]
    parses to the record with group [Actor], name [Create], return type
    [void*] and the six parameters [int modelid], [float x], [float y],
    [float z], [float rotation], [int* id], in this order. *)
Theorem parse_Actor_Create :
  Header.parseAPILine
    (js "OMP_CAPI(Actor_Create, objectPtr(int modelid, float x, float y, float z, float rotation, int* id))")
  = Ok {| Header.group := js "Actor";
          Header.api :=
            {| ret := Str (js "void*");
               name := js "Create";
               params :=
                 [ {| param_name := js "modelid"; param_type := Str (js "int") |};
                   {| param_name := js "x"; param_type := Str (js "float") |};
                   {| param_name := js "y"; param_type := Str (js "float") |};
                   {| param_name := js "z"; param_type := Str (js "float") |};
                   {| param_name := js "rotation"; param_type := Str (js "float") |};
                   {| param_name := js "id"; param_type := Str (js "int*") |} ] |} |}.
Proof. vm_compute. reflexivity. Qed.

(** C7: on every annotation line on which the name and return type are
    found (so that the parameter region [ps] is defined), the record is
    produced; its parameters are the records of the tokens of [ps] that
    have two words at least, in the order of the line, and every token
    with fewer than two words is dropped by the parameter parser. *)
Theorem malformed_parameter_dropped (line ps : jsstring) :
  Header.paramsString_of line = Some ps ->
  exists r,
    Header.parseAPILine line = Ok r
    /\ params (Header.api r)
       = map param_of (filter has_two_words (split ps (js ", ")))
    /\ (forall tok, In tok (split ps (js ", ")) ->
          has_two_words tok = false -> Header.parseParameter tok = None)
    /\ (forall tok, In tok (split ps (js ", ")) ->
          has_two_words tok = true ->
          Header.parseParameter tok = Some (param_of tok)).
Proof.
  intros H. destruct (parseAPILine_params line ps H) as [r [Hr Hp]].
  exists r. split; [exact Hr|]. split.
  - rewrite Hp. apply filter_Boolean_parse.
  - split; intros tok _ Hw.
    + now apply parseParameter_dropped.
    + now apply parseParameter_kept.
Qed.

(** The line [OMP_CAPI(Actor_Move, bool(int id, broken, float x))]: the
    one-word token [broken] is dropped, [id] and [x] are kept. *)
Lemma malformed_parameter_dropped_witness :
  Header.paramsString_of (js "OMP_CAPI(Actor_Move, bool(int id, broken, float x))")
  = Some (js "int id, broken, float x")
  /\ exists r,
       Header.parseAPILine (js "OMP_CAPI(Actor_Move, bool(int id, broken, float x))")
       = Ok r
       /\ params (Header.api r)
          = [ {| param_name := js "id"; param_type := Str (js "int") |};
              {| param_name := js "x"; param_type := Str (js "float") |} ].
Proof.
  split; [reflexivity|].
  destruct (malformed_parameter_dropped
              (js "OMP_CAPI(Actor_Move, bool(int id, broken, float x))")
              (js "int id, broken, float x") eq_refl) as [r [Hr [Hp _]]].
  exists r. split; [exact Hr|]. rewrite Hp. reflexivity.
Defined.

(** C10: on every annotation line whose parameter region is the empty
    string, parsing succeeds and the record has no parameter: the one
    empty token of the split is dropped by the parameter parser. *)
Theorem empty_parameter_region (line : jsstring) :
  Header.paramsString_of line = Some [] ->
  split [] (js ", ") = [[]]
  /\ Header.parseParameter [] = None
  /\ exists r, Header.parseAPILine line = Ok r /\ params (Header.api r) = [].
Proof.
  intros H. split; [reflexivity|]. split; [reflexivity|].
  destruct (parseAPILine_params line [] H) as [r [Hr Hp]].
  exists r. split; [exact Hr|]. rewrite Hp. reflexivity.
Qed.

(** The zero-parameter line [OMP_CAPI(Core_TickCount, uint32_t())]. *)
Lemma empty_parameter_region_witness :
  Header.paramsString_of (js "OMP_CAPI(Core_TickCount, uint32_t())") = Some []
  /\ exists r,
       Header.parseAPILine (js "OMP_CAPI(Core_TickCount, uint32_t())") = Ok r
       /\ params (Header.api r) = [].
Proof.
  split; [reflexivity|].
  exact (proj2 (proj2 (empty_parameter_region
                         (js "OMP_CAPI(Core_TickCount, uint32_t())") eq_refl))).
Defined.

(** ** Type normalization *)

Section Normalization.

Lemma own_In {A} (o : obj A) (k : jsstring) (v : A) :
  own o k = Some v -> exists k', In (k', v) o.
Proof.
  induction o as [|[k' v'] o IH]; simpl; [discriminate|].
  destruct (Str.eqb k' k).
  - intros H. injection H as ->. exists k'. now left.
  - intros H. destruct (IH H) as [k'' Hin]. exists k''. now right.
Qed.

Lemma closed_table_result (tbl : obj jsstring) (v w : value) :
  closed_table tbl = true -> get tbl v = Some w -> get tbl w = None.
Proof.
  unfold closed_table. intros Hc Hg.
  apply andb_true_iff in Hc as [Hown Hproto].
  rewrite forallb_forall in Hown, Hproto.
  unfold get in Hg. destruct (own tbl (toStr v)) as [s|] eqn:E.
  - injection Hg as <-. destruct (own_In _ _ _ E) as [k' Hin].
    specialize (Hown _ Hin). simpl in Hown.
    destruct (get tbl (Str s)); [discriminate|reflexivity].
  - destruct (inherited (toStr v)) as [p|]; [|discriminate].
    injection Hg as <-.
    assert (Hp : In p [P_constructor; P_defineGetter; P_defineSetter;
                       P_hasOwnProperty; P_lookupGetter; P_lookupSetter;
                       P_isPrototypeOf; P_propertyIsEnumerable; P_toString;
                       P_valueOf; P_proto; P_toLocaleString])
      by (destruct p; simpl; tauto).
    specialize (Hproto _ Hp). simpl in Hproto.
    destruct (get tbl (Proto p)); [discriminate|reflexivity].
Qed.

Lemma get_or_self_idempotent (tbl : obj jsstring) (v : value) :
  closed_table tbl = true ->
  get_or_self tbl (get_or_self tbl v) = get_or_self tbl v.
Proof.
  intros Hc. unfold get_or_self.
  destruct (get tbl v) as [w|] eqn:E.
  - destruct (truthy w) eqn:T.
    + now rewrite (closed_table_result tbl v w Hc E).
    + now rewrite E, T.
  - now rewrite E.
Qed.

End Normalization.

(** C8: each of the three normalization tables (function signatures,
    event arguments, JSON emitter) is idempotent on every type token:
    normalizing a normalized token returns it unchanged. *)
Theorem normalization_idempotent (t : jsstring) :
  Header.convertFunctionArgType (Header.convertFunctionArgType (Str t))
  = Header.convertFunctionArgType (Str t)
  /\ Header.convertEventArgType (Header.convertEventArgType (Str t))
     = Header.convertEventArgType (Str t)
  /\ Json.convertTypeName (Json.convertTypeName (Str t))
     = Json.convertTypeName (Str t).
Proof.
  repeat split; apply get_or_self_idempotent; vm_compute; reflexivity.
Qed.

(** ** The parameter parser *)

Section ParameterParser.

Import Header.

Lemma split_two_words (a b : jsstring) :
  ~ In 32%N a ->
  split (a ++ js " " ++ b) (js " ") = a :: split b (js " ").
Proof. intros H. exact (split_first 32%N [] a b H). Qed.

Lemma split_word_then (nm more : jsstring) :
  ~ In 32%N nm -> (more = [] \/ exists m, more = 32%N :: m) ->
  exists l, split (nm ++ more) (js " ") = nm :: l.
Proof.
  intros Hn [->|[m ->]].
  - rewrite app_nil_r. exists []. now apply (split_none 32%N []).
  - exists (split m (js " ")). exact (split_first 32%N [] nm m Hn).
Qed.

End ParameterParser.

Lemma parseParameter_words (p ty nm more : jsstring) :
  trim p = ty ++ js " " ++ nm ++ more ->
  ~ In 32%N ty -> ~ In 32%N nm ->
  (more = [] \/ exists m, more = 32%N :: m) ->
  Header.parseParameter p
  = Some {| param_name := nm;
            param_type := Header.convertFunctionArgType (Str ty) |}.
Proof.
  intros Ht Hty Hnm Hmore.
  unfold Header.parseParameter. rewrite Ht.
  rewrite split_two_words by exact Hty.
  destruct (split_word_then nm more Hnm Hmore) as [l ->].
  reflexivity.
Qed.

(** C5 (amended): when the trimmed token reads [ty], a space, [nm] and
    then either nothing or a space and more text, where [ty] and [nm]
    hold no space, the parameter parser returns the normalized [ty] as the
    type and [nm] as the name; what follows the second space is not part
    of the name. *)
Theorem parameter_first_two_words (p ty nm more : jsstring) :
  trim p = ty ++ js " " ++ nm ++ more ->
  ~ In 32%N ty -> ~ In 32%N nm ->
  (more = [] \/ exists m, more = 32%N :: m) ->
  Header.parseParameter p
  = Some {| param_name := nm;
            param_type := Header.convertFunctionArgType (Str ty) |}.
Proof. exact (parseParameter_words p ty nm more). Qed.

(** The token [unsigned int x], which has two spaces. *)
Lemma parameter_first_two_words_witness :
  Header.parseParameter (js "unsigned int x")
  = Some {| param_name := js "int"; param_type := Str (js "unsigned") |}.
Proof.
  apply (parameter_first_two_words (js "unsigned int x") (js "unsigned")
           (js "int") (js " x")).
  - reflexivity.
  - vm_compute. intuition discriminate.
  - vm_compute. intuition discriminate.
  - right. exists (js "x"). reflexivity.
Defined.

(** C5, as stated, fails on the token [unsigned int x]: the text after
    the first space is [int x], but the parsed name is [int]. *)
Lemma name_is_not_remainder :
  exists prm,
    Header.parseParameter (js "unsigned int x") = Some prm
    /\ param_name prm = js "int"
    /\ param_name prm <> js "int x".
Proof.
  eexists. split; [reflexivity|]. split; [reflexivity|].
  vm_compute. discriminate.
Qed.

(** ** The two line parsers *)

Section TwoParsers.

Lemma parameter_name_agrees (tok : jsstring) :
  option_map param_name (Header.parseParameter tok)
  = option_map param_name (Json.parseParameter tok).
Proof.
  unfold Header.parseParameter, Json.parseParameter.
  now destruct (length (split (trim tok) (js " ")) <? 2)%nat.
Qed.

Lemma parameter_names_agree (toks : list jsstring) :
  map param_name (filter_Boolean (map Header.parseParameter toks))
  = map param_name (filter_Boolean (map Json.parseParameter toks)).
Proof.
  induction toks as [|tok toks IH]; [reflexivity|].
  simpl. pose proof (parameter_name_agrees tok) as Ht.
  destruct (Header.parseParameter tok), (Json.parseParameter tok);
    simpl in *; try discriminate.
  - injection Ht as ->. now rewrite IH.
  - exact IH.
Qed.

Lemma group_and_name (fullName g : jsstring) (nameParts : list jsstring) :
  split fullName (js "_") = g :: nameParts ->
  In 95%N fullName ->
  fullName = g ++ js "_" ++ join nameParts (js "_").
Proof.
  intros E Hin.
  apply split_unit_tail in Hin. change [95%N] with (js "_") in Hin.
  rewrite E in Hin. simpl in Hin.
  rewrite <- (join_split 95%N [] fullName) at 1.
  change [95%N] with (js "_"). rewrite E.
  destruct nameParts as [|n l]; [congruence|reflexivity].
Qed.

End TwoParsers.

(** C9: on every annotation line the two line parsers fail together or
    succeed together; when they succeed they yield the same number of
    parameters, with the same names in the same order, and whenever the
    full name holds an underscore the flat name of the JSON emitter is
    the group of the header parser, an underscore and its name. *)
Theorem parsers_agree (line : jsstring) :
  match Header.parseAPILine line, Json.parseAPILine line with
  | Ok h, Ok j =>
      length (params (Header.api h)) = length (params (Json.api j))
      /\ map param_name (params (Header.api h))
         = map param_name (params (Json.api j))
      /\ (In 95%N (name (Json.api j)) ->
          name (Json.api j)
          = Header.group h ++ js "_" ++ name (Header.api h))
  | TypeError, TypeError => True
  | _, _ => False
  end.
Proof.
  unfold Header.parseAPILine, Json.parseAPILine.
  change Json.API_PREFIX with Header.API_PREFIX.
  destruct (split (replace line Header.API_PREFIX []) (js ", "))
    as [|fullName [|rest l]]; try exact I.
  destruct (split fullName (js "_")) as [|g nameParts] eqn:E;
    [now apply split_not_nil in E|].
  cbn [Header.api Json.api params name Header.group].
  split; [|split].
  - rewrite <- (length_map param_name), parameter_names_agree.
    apply length_map.
  - apply parameter_names_agree.
  - now apply group_and_name.
Qed.

(** Without an underscore in the full name the flat name is not the
    group, an underscore and the name: the line [OMP_CAPI(Version, int())]
    has the flat name [Version], the group [Version] and the empty name. *)
Example flat_name_without_underscore :
  Json.parseAPILine (js "OMP_CAPI(Version, int())")
  = Ok {| Json.component := js "Version";
          Json.api := {| ret := Str (js "int"); name := js "Version";
                         params := [] |} |}
  /\ Header.parseAPILine (js "OMP_CAPI(Version, int())")
     = Ok {| Header.group := js "Version";
             Header.api := {| ret := Str (js "int"); name := [];
                              params := [] |} |}.
Proof. split; reflexivity. Qed.

(** The header parser splits [Actor_Get_Pos] into [Actor] and [Get_Pos];
    a name without underscore gets the empty name. *)
Example split_full_name :
  option_map (fun h => (Header.group h, name (Header.api h)))
    (match Header.parseAPILine (js "OMP_CAPI(Actor_Get_Pos, bool(int id))") with
     | Ok h => Some h
     | TypeError => None
     end)
  = Some (js "Actor", js "Get_Pos").
Proof. reflexivity. Qed.

(** ** The grouped model *)

Section Grouping.

Import Header.

Lemma own_app {A} (o : obj A) (k k' : jsstring) (v : A) :
  own (o ++ [(k, v)]) k'
  = match own o k' with
    | Some x => Some x
    | None => if Str.eqb k k' then Some v else None
    end.
Proof.
  induction o as [|[k0 v0] o IH]; simpl; [reflexivity|].
  destruct (Str.eqb k0 k'); [reflexivity|exact IH].
Qed.

Lemma eqb_trans_false (a b c : jsstring) :
  Str.eqb a b = false -> Str.eqb a c = true -> Str.eqb b c = true -> False.
Proof.
  intros Hab Hac Hbc. apply eqb_eq in Hac, Hbc. apply eqb_neq in Hab.
  congruence.
Qed.

Lemma own_define {A} (o : obj A) (g g' : jsstring) (v : A) :
  own o g = None ->
  own (define o g v) g' = if Str.eqb g g' then Some v else own o g'.
Proof.
  intros Hnone. destruct (arrayIndex g) as [n|] eqn:Ha.
  - induction o as [|[k0 v0] o IH]; simpl; rewrite Ha; [reflexivity|].
    simpl in Hnone. destruct (Str.eqb k0 g) eqn:Ek; [discriminate|].
    destruct (arrayIndex k0) as [n0|]; [|reflexivity].
    destruct (n0 <? n)%N; [|reflexivity].
    simpl. rewrite (IH Hnone).
    destruct (Str.eqb k0 g') eqn:E1, (Str.eqb g g') eqn:E2; try reflexivity.
    exfalso. exact (eqb_trans_false _ _ _ Ek E1 E2).
  - assert (Hd : define o g v = o ++ [(g, v)])
      by (destruct o; simpl; now rewrite Ha).
    rewrite Hd, own_app.
    destruct (own o g') as [x|] eqn:Eo.
    + destruct (Str.eqb g g') eqn:E; [|reflexivity].
      apply eqb_eq in E. congruence.
    + reflexivity.
Qed.

Lemma own_update {A} (o : obj A) (g g' : jsstring) (x v : A) :
  own o g = Some x ->
  own (update o g v) g' = if Str.eqb g g' then Some v else own o g'.
Proof.
  induction o as [|[k0 v0] o IH]; simpl; [discriminate|].
  destruct (Str.eqb k0 g) eqn:Ek.
  - intros _. apply eqb_eq in Ek. subst k0. simpl.
    destruct (Str.eqb g g'); reflexivity.
  - intros H. simpl. rewrite (IH H).
    destruct (Str.eqb k0 g') eqn:E1, (Str.eqb g g') eqn:E2; try reflexivity.
    exfalso. exact (eqb_trans_false _ _ _ Ek E1 E2).
Qed.

(** One insertion appends to the list of its group and leaves the other
    groups as they are. *)
Lemma push_api_records (o o' : obj (list Api)) (g : jsstring) (a : Api) :
  push_api o g a = Ok o' ->
  forall g', records_of o' g'
             = if Str.eqb g g' then records_of o g ++ [a] else records_of o g'.
Proof.
  unfold push_api, records_of. intros H g'.
  destruct (own o g) as [functions|] eqn:Eo.
  - injection H as <-. rewrite (own_update o g g' functions _ Eo).
    destruct (Str.eqb g g'); reflexivity.
  - destruct (inherited g); [discriminate|]. injection H as <-.
    rewrite (own_define o g g' _ Eo).
    destruct (Str.eqb g g'); reflexivity.
Qed.

Lemma push_all_records (recs : list Parsed) (o o' : obj (list Api)) :
  push_all o recs = Ok o' ->
  forall g, records_of o' g
            = records_of o g
              ++ map api (filter (fun r => Str.eqb (group r) g) recs).
Proof.
  revert o. induction recs as [|r recs IH]; intros o H g; simpl in *.
  - injection H as <-. now rewrite app_nil_r.
  - destruct (push_api o (group r) (api r)) as [o1|] eqn:E; [|discriminate].
    simpl in H. rewrite (IH o1 H g), (push_api_records _ _ _ _ E g).
    destruct (Str.eqb (group r) g) eqn:Eg; [|reflexivity].
    apply eqb_eq in Eg. rewrite Eg. simpl. now rewrite <- app_assoc.
Qed.

Lemma collect_files_records (files : tree) (o o' : obj (list Api)) :
  collect_files files o = Ok o' ->
  exists recs,
    all_records files = Ok recs
    /\ forall g, records_of o' g
                 = records_of o g
                   ++ map api (filter (fun r => Str.eqb (group r) g) recs).
Proof.
  revert o. induction files as [|[path lines] files IH]; intros o H; simpl in *.
  - injection H as <-. exists []. split; [reflexivity|].
    intros g. simpl. now rewrite app_nil_r.
  - destruct (processFile lines) as [apis|]; [|discriminate]. simpl in *.
    destruct (push_all o apis) as [o1|] eqn:E; [|discriminate]. simpl in H.
    destruct (IH o1 H) as [others [Ho Hg]].
    exists (apis ++ others). rewrite Ho. split; [reflexivity|].
    intros g. rewrite Hg, (push_all_records _ _ _ E g).
    now rewrite filter_app, map_app, app_assoc.
Qed.

End Grouping.

(** C1 (amended): in every generation run that completes, the list of a
    group in the grouped model holds every record parsed for that group
    from the selected files, in processing order; an insertion appends
    and replaces nothing, so two annotation lines with the same
    (group, name) key leave two records, the earlier one first. *)
Theorem grouping_keeps_every_record (dir : Header.tree) (o : obj (list Api)) :
  Header.collectAPIs dir = Ok o ->
  exists recs,
    all_records (selected dir) = Ok recs
    /\ forall g, records_of o g
                 = map Header.api
                     (filter (fun r => Str.eqb (Header.group r) g) recs).
Proof.
  unfold Header.collectAPIs. intros H.
  destruct (collect_files_records _ _ _ H) as [recs [Hr Hg]].
  exists recs. split; [exact Hr|]. intros g. now rewrite Hg.
Qed.

(** The run on [duplicate_tree]. *)
Lemma grouping_keeps_every_record_witness :
  Header.collectAPIs duplicate_tree
  = Ok [(js "Actor", [earlier_record; later_record])]
  /\ exists recs,
       all_records (selected duplicate_tree) = Ok recs
       /\ forall g, records_of [(js "Actor", [earlier_record; later_record])] g
                    = map Header.api
                        (filter (fun r => Str.eqb (Header.group r) g) recs).
Proof.
  split; [reflexivity|].
  exact (grouping_keeps_every_record duplicate_tree
           [(js "Actor", [earlier_record; later_record])] eq_refl).
Defined.

(** C1, as stated, fails on [duplicate_tree]: both lines have the key
    (Actor, Create), and the group keeps two records with that name, the
    earlier one among them, not the later one alone. *)
Lemma duplicate_key_keeps_both :
  exists o,
    Header.collectAPIs duplicate_tree = Ok o
    /\ filter (fun a => Str.eqb (name a) (js "Create")) (records_of o (js "Actor"))
       = [earlier_record; later_record]
    /\ filter (fun a => Str.eqb (name a) (js "Create")) (records_of o (js "Actor"))
       <> [later_record].
Proof.
  eexists. split; [reflexivity|]. split; [reflexivity|].
  vm_compute. discriminate.
Qed.

(** ** The emitters *)

Section Emitters.

(** A loop whose body only appends writes the texts of its elements in
    order. *)
Lemma forEach_appends {A} (text : A -> jsstring) (f : A -> file -> file)
  (l : list A) (out : file) :
  (forall x o, f x o = o ++ text x) ->
  forEach l f out = out ++ flat_map text l.
Proof.
  intros Hf. revert out. unfold forEach.
  induction l as [|x l IH]; intros out; simpl.
  - now rewrite app_nil_r.
  - now rewrite IH, Hf, <- app_assoc.
Qed.

Lemma flat_map_In {A} (text : A -> jsstring) (l : list A) (x : A) :
  In x l -> exists before after, flat_map text l = before ++ text x ++ after.
Proof.
  intros H. apply in_split in H as [l1 [l2 ->]].
  exists (flat_map text l1), (flat_map text l2).
  now rewrite flat_map_app.
Qed.

Lemma writeEventDefinitions_text (events : obj (list Header.Event)) (out : file) :
  Header.writeEventDefinitions events out
  = out ++ flat_map event_group_text (Object_entries events) ++ nl.
Proof.
  unfold Header.writeEventDefinitions, appendFileSync.
  rewrite (forEach_appends event_group_text).
  - now rewrite <- app_assoc.
  - intros [group eventList] o. unfold event_group_text. cbn [fst snd].
    rewrite (forEach_appends event_text).
    + now rewrite <- ?app_assoc.
    + intros event o'. unfold event_text. now rewrite <- ?app_assoc.
Qed.

End Emitters.

(** C3: for every grouped model, the initializer text written after the
    current contents of the file is, in this order: the opening of the
    library at the fixed path of the platform, the failure return when the
    open failed, the resolution of the sentinel [Core_TickCount], the
    failure return when it is null, then for every group and every record
    in the order of the model the assignment of the lookup of
    [group_name] to the field [group.name] and nothing else, and last the
    return of true.  No symbol is looked up before the sentinel. *)
Theorem initializer_text (apis : obj (list Api)) (out : file) :
  Header.writeInitializationFunction apis out
  = out ++ Initializer.open_library ++ Initializer.open_check
        ++ Initializer.resolve_sentinel ++ Initializer.sentinel_check
        ++ flat_map Initializer.group_block (Object_entries apis)
        ++ Initializer.return_true
  /\ indexOf (Initializer.open_library ++ Initializer.open_check)
             (js "LIBRARY_GET_ADDR") 0 = (-1)%Z.
Proof.
  split; [|vm_compute; reflexivity].
  unfold Header.writeInitializationFunction, appendFileSync.
  rewrite (forEach_appends Initializer.group_block).
  - assert (Hhead : Header.INITIALIZER_HEAD
                    = Initializer.open_library ++ Initializer.open_check
                      ++ Initializer.resolve_sentinel
                      ++ Initializer.sentinel_check)
      by (vm_compute; reflexivity).
    rewrite Hhead. unfold Initializer.return_true.
    now rewrite <- ?app_assoc.
  - intros [group functions] o. unfold Initializer.group_block. cbn [fst snd].
    rewrite (forEach_appends (fun func => Initializer.resolve group (name func))).
    + now rewrite <- ?app_assoc.
    + intros func o'. unfold Initializer.resolve. reflexivity.
Qed.

(** The initializer of a model with the one record [Actor_Create]. *)
Example initializer_of_one_record :
  Header.writeInitializationFunction [(js "Actor", [earlier_record])] []
  = Header.INITIALIZER_HEAD
    ++ nl ++ js "    // Retrieve Actor functions" ++ nl
    ++ js "    ompapi->Actor.Create = (Actor_Create_t)LIBRARY_GET_ADDR(capi_lib, "
    ++ dq ++ js "Actor_Create" ++ dq ++ js ");" ++ nl
    ++ nl ++ js "    return true;" ++ nl ++ js "};" ++ nl.
Proof. vm_compute. reflexivity. Qed.

(** C6 (amended): for every event schema that holds the entry
    [OnPlayerConnect], the emitted text holds the argument record
    [EventArgs_OnPlayerConnect], whose first field is [int* playerid] and
    whose second field, named [ip], is a pointer to the normalized
    string-view record type ([struct CAPIStringView*]), followed by the
    callback alias [EventCallback_OnPlayerConnect] that takes this
    record. *)
Theorem OnPlayerConnect_emitted
  (events : obj (list Header.Event)) (group : jsstring)
  (eventList : list Header.Event) (out : file) :
  In (group, eventList) (Object_entries events) ->
  In OnPlayerConnect eventList ->
  exists before after,
    Header.writeEventDefinitions events out
    = out ++ before ++ OnPlayerConnect_text ++ after.
Proof.
  intros Hg He. rewrite writeEventDefinitions_text.
  destruct (flat_map_In event_group_text _ _ Hg) as [b1 [a1 ->]].
  destruct (flat_map_In event_text _ _ He) as [b2 [a2 H2]].
  unfold event_group_text. cbn [fst snd]. rewrite H2.
  assert (Ht : event_text OnPlayerConnect = OnPlayerConnect_text)
    by (vm_compute; reflexivity).
  rewrite Ht.
  exists (b1 ++ nl ++ nl ++ js "// " ++ group
          ++ js " event type and arguments definitions" ++ b2),
         (a2 ++ a1 ++ nl).
  now rewrite <- ?app_assoc.
Qed.

(** The schema with the one component [Player] and the one event. *)
Lemma OnPlayerConnect_emitted_witness :
  exists before after,
    Header.writeEventDefinitions [(js "Player", [OnPlayerConnect])] []
    = [] ++ before ++ OnPlayerConnect_text ++ after.
Proof.
  apply (OnPlayerConnect_emitted [(js "Player", [OnPlayerConnect])]
           (js "Player") [OnPlayerConnect] []).
  - left. reflexivity.
  - left. reflexivity.
Defined.

(** C6, as stated, fails: the second field of the emitted record is
    declared [struct CAPIStringView* ip], a pointer, and a field [ip] of
    type [struct CAPIStringView] occurs nowhere in the emitted text. *)
Lemma ip_field_is_a_pointer :
  map Header.event_field (Header.event_args OnPlayerConnect)
  = [ js "        int* playerid;"; js "        struct CAPIStringView* ip;" ]
  /\ indexOf
       (Header.writeEventDefinitions [(js "Player", [OnPlayerConnect])] [])
       (js "struct CAPIStringView ip;") 0 = (-1)%Z
  /\ (0 <= indexOf
        (Header.writeEventDefinitions [(js "Player", [OnPlayerConnect])] [])
        (js "struct CAPIStringView* ip;") 0)%Z.
Proof.
  split; [vm_compute; reflexivity|].
  split; vm_compute; [reflexivity|discriminate].
Qed.

(** ** Well-formed annotation lines *)

Section RoundTrip.

Import Header Grammar.

Lemma plain_not_special (c : N) :
  plain c = true ->
  isWhiteSpace c = false /\ c <> 32%N /\ c <> 44%N /\ c <> 40%N /\ c <> 41%N.
Proof.
  unfold plain. intros H. apply andb_true_iff in H as [Hw Hs].
  apply negb_true_iff in Hw, Hs.
  split; [exact Hw|].
  repeat split; intros ->; vm_compute in Hw, Hs; discriminate.
Qed.

Lemma word_plain (s : jsstring) (c : N) :
  word s = true -> In c s -> plain c = true.
Proof. unfold word. rewrite forallb_forall. auto. Qed.

Lemma word_notin (s : jsstring) (c : N) :
  word s = true -> plain c = false -> ~ In c s.
Proof.
  intros Hw Hc Hin. rewrite (word_plain s c Hw Hin) in Hc. discriminate.
Qed.

Lemma token_word (s : jsstring) : token s = true -> s <> [] /\ word s = true.
Proof. destruct s; simpl; [discriminate|]. intros H. split; [discriminate|exact H]. Qed.

Lemma In_join (c : N) (l : list jsstring) (sep : jsstring) :
  In c (join l sep) -> In c sep \/ exists x, In x l /\ In c x.
Proof.
  induction l as [|x l IH]; [intros []|].
  destruct l as [|y l].
  - simpl. intros H. right. exists x. split; [now left|exact H].
  - change (join (x :: y :: l) sep) with (x ++ sep ++ join (y :: l) sep).
    intros H. apply in_app_or in H as [H|H].
    + right. exists x. split; [now left|exact H].
    + apply in_app_or in H as [H|H]; [now left|].
      destruct (IH H) as [Hs|[z [Hz Hc]]]; [now left|].
      right. exists z. split; [now right|exact Hc].
Qed.

Lemma trim_ends (c d : N) (m : jsstring) :
  isWhiteSpace c = false -> isWhiteSpace d = false ->
  trim (c :: m ++ [d]) = c :: m ++ [d].
Proof.
  intros Hc Hd. unfold trim, trimEnd.
  rewrite trimStart_head by exact Hc.
  change (c :: m ++ [d]) with ((c :: m) ++ [d]).
  rewrite rev_app_distr. simpl rev at 2.
  change ([d] ++ rev (c :: m)) with (d :: rev (c :: m)).
  rewrite trimStart_head by exact Hd.
  change (d :: rev (c :: m)) with ([d] ++ rev (c :: m)).
  now rewrite rev_app_distr, rev_involutive.
Qed.

(** A well-formed pair parses to its normalized record. *)
Lemma parse_pair (p : jsstring * jsstring) :
  token (fst p) = true -> token (snd p) = true ->
  parseParameter (pair_text p) = Some (normalized p).
Proof.
  destruct p as [ty nm]. cbn [fst snd]. intros Hty Hnm.
  apply token_word in Hty as [Hty0 Hty], Hnm as [Hnm0 Hnm].
  unfold normalized. cbn [fst snd].
  apply (parseParameter_words _ ty nm []).
  - unfold pair_text. cbn [fst snd]. rewrite app_nil_r.
    destruct ty as [|c ty]; [congruence|].
    destruct (exists_last Hnm0) as [n0 [d ->]].
    replace ((c :: ty) ++ js " " ++ n0 ++ [d])
      with (c :: (ty ++ js " " ++ n0) ++ [d])
      by (simpl; now rewrite <- !app_assoc).
    apply trim_ends.
    + apply plain_not_special, (word_plain _ _ Hty). now left.
    + apply plain_not_special, (word_plain _ _ Hnm).
      apply in_or_app. right. now left.
  - now apply word_notin.
  - now apply word_notin.
  - now left.
Qed.

Lemma pair_text_chars (p : jsstring * jsstring) (c : N) :
  token (fst p) = true -> token (snd p) = true ->
  In c (pair_text p) -> c = 32%N \/ plain c = true.
Proof.
  intros Hty Hnm. apply token_word in Hty as [_ Hty], Hnm as [_ Hnm].
  unfold pair_text. intros H.
  apply in_app_or in H as [H|H]; [right; exact (word_plain _ _ Hty H)|].
  apply in_app_or in H as [H|H]; [|right; exact (word_plain _ _ Hnm H)].
  left. destruct H as [H|[]]. now symmetry.
Qed.

Lemma params_text_chars (ps : list (jsstring * jsstring)) (c : N) :
  forallb (fun p => token (fst p) && token (snd p)) ps = true ->
  In c (params_text ps) -> c = 32%N \/ c = 44%N \/ plain c = true.
Proof.
  intros Hps H. unfold params_text in H.
  apply In_join in H as [H|[x [Hx Hc]]].
  - destruct H as [H|[H|[]]]; [right; left|left]; now symmetry.
  - apply in_map_iff in Hx as [p [<- Hp]].
    rewrite forallb_forall in Hps. specialize (Hps p Hp).
    apply andb_true_iff in Hps as [Hty Hnm].
    destruct (pair_text_chars p c Hty Hnm Hc) as [?|?]; tauto.
Qed.

(** The tokens of the parameter text of a well-formed line parse to the
    normalized records of its pairs. *)
Lemma parse_params_text (ps : list (jsstring * jsstring)) :
  forallb (fun p => token (fst p) && token (snd p)) ps = true ->
  filter_Boolean (map parseParameter (split (params_text ps) (js ", ")))
  = map normalized ps.
Proof.
  intros Hps. destruct ps as [|p ps]; [reflexivity|].
  unfold params_text.
  rewrite (split_join 44%N [32%N]).
  - rewrite forallb_forall in Hps.
    remember (p :: ps) as l eqn:El. clear El.
    induction l as [|q l IH]; [reflexivity|].
    assert (Hq := Hps q (or_introl eq_refl)).
    apply andb_true_iff in Hq as [Hty Hnm].
    simpl. rewrite (parse_pair q Hty Hnm). simpl. f_equal.
    apply IH. intros x Hx. apply Hps. now right.
  - discriminate.
  - apply Forall_forall. intros x Hx Hc.
    apply in_map_iff in Hx as [q [<- Hq]].
    rewrite forallb_forall in Hps. specialize (Hps q Hq).
    apply andb_true_iff in Hps as [Hty Hnm].
    destruct (pair_text_chars q _ Hty Hnm Hc) as [?|?]; discriminate.
Qed.

End RoundTrip.

Section Annotation.

Import Header Grammar.

Lemma not_in_app (c : N) (a b : jsstring) :
  ~ In c a -> ~ In c b -> ~ In c (a ++ b).
Proof. intros Ha Hb H. apply in_app_or in H. tauto. Qed.

Lemma params_text_no_paren (ps : list (jsstring * jsstring)) :
  forallb (fun p => token (fst p) && token (snd p)) ps = true ->
  ~ In 40%N (params_text ps) /\ ~ In 41%N (params_text ps).
Proof.
  intros Hps.
  split; intros H;
    destruct (params_text_chars ps _ Hps H) as [?|[?|?]]; discriminate.
Qed.

(** The local constants of [parseAPILine] on the content
    [fullName, returnType(region))]: [rest] starts with the return type
    and its parenthesis, [returnType] and [paramsString] are the return
    type and the region. *)
Lemma content_locals (fullName returnType region : jsstring) :
  word fullName = true -> word returnType = true ->
  ~ In 40%N region -> ~ In 41%N region ->
  let content :=
    fullName ++ js ", " ++ returnType ++ js "(" ++ region ++ js "))" in
  exists rest l,
    split content (js ", ") = fullName :: rest :: l
    /\ substring rest 0 (indexOf rest (js "(") 0) = returnType
    /\ substring content
         (indexOf content (js "(") (indexOf content returnType 0) + 1)
         (indexOf content (js ")") 0) = region.
Proof.
  intros Hname Hret Hopen Hclose content.
  destruct (split (region ++ js "))") (js ", ")) as [|h l] eqn:Eh;
    [now apply split_not_nil in Eh|].
  exists (returnType ++ js "(" ++ h), l.
  split; [|split].
  - unfold content. change (js ", ") with (44%N :: [32%N]) in *.
    rewrite split_first by (now apply word_notin).
    replace (returnType ++ js "(" ++ region ++ js "))")
      with ((returnType ++ js "(") ++ region ++ js "))")
      by (now rewrite <- app_assoc).
    rewrite split_app_head, Eh.
    + simpl. now rewrite <- app_assoc.
    + apply not_in_app; [now apply word_notin|].
      vm_compute. intuition discriminate.
  - replace (indexOf (returnType ++ js "(" ++ h) (js "(") 0)
      with (Z.of_nat (length returnType)).
    + exact (substring_mid [] returnType (js "(" ++ h)).
    + symmetry.
      apply (indexOf_unit 40%N returnType h 0); [now apply word_notin|lia].
  - set (before := fullName ++ js ", " ++ returnType).
    assert (Hbefore : ~ In 40%N before /\ ~ In 41%N before).
    { split; (apply not_in_app; [now apply word_notin|]);
        (apply not_in_app; [vm_compute; intuition discriminate|]);
        now apply word_notin. }
    assert (H3 : exists j, indexOf content returnType 0 = Z.of_nat j
                           /\ j <= length (fullName ++ js ", ")).
    { apply indexOf_zero_before.
      - unfold content. rewrite !length_app. lia.
      - unfold content.
        replace (fullName ++ js ", " ++ returnType ++ js "(" ++ region
                   ++ js "))")
          with ((fullName ++ js ", ") ++ returnType ++ js "(" ++ region
                  ++ js "))")
          by (now rewrite <- app_assoc).
        rewrite skipn_app, skipn_all, Nat.sub_diag, skipn_O. simpl.
        apply isPrefix_app. }
    destruct H3 as [j [H3 Hj]]. rewrite H3.
    assert (H4 : indexOf content (js "(") (Z.of_nat j)
                 = Z.of_nat (length before)).
    { unfold content.
      replace (fullName ++ js ", " ++ returnType ++ js "(" ++ region
                 ++ js "))")
        with (before ++ 40%N :: (region ++ js "))"))
        by (unfold before; now rewrite <- !app_assoc).
      apply indexOf_unit; [apply Hbefore|].
      unfold before. rewrite !length_app in *. lia. }
    assert (H5 : indexOf content (js ")") 0
                 = Z.of_nat (length (before ++ js "(") + length region)).
    { unfold content.
      replace (fullName ++ js ", " ++ returnType ++ js "(" ++ region
                 ++ js "))")
        with (((before ++ js "(") ++ region) ++ 41%N :: js ")")
        by (unfold before; now rewrite <- !app_assoc).
      rewrite <- length_app.
      apply (indexOf_unit 41%N _ _ 0); [|lia].
      apply not_in_app; [|exact Hclose].
      apply not_in_app; [apply Hbefore|vm_compute; intuition discriminate]. }
    rewrite H4, H5.
    replace (Z.of_nat (length before) + 1)%Z
      with (Z.of_nat (length (before ++ js "(")))
      by (rewrite length_app; simpl; lia).
    unfold content.
    replace (fullName ++ js ", " ++ returnType ++ js "(" ++ region ++ js "))")
      with ((before ++ js "(") ++ region ++ js "))")
      by (unfold before; now rewrite <- !app_assoc).
    apply substring_mid.
Qed.

(** On a line of the grammar's shape the parameter region is what stands
    between the parentheses, whatever its tokens are. *)
Lemma paramsString_of_line (fullName returnType region : jsstring) :
  word fullName = true -> word returnType = true ->
  ~ In 40%N region -> ~ In 41%N region ->
  paramsString_of (line_of fullName returnType region) = Some region.
Proof.
  intros Hname Hret Hopen Hclose.
  destruct (content_locals fullName returnType region Hname Hret Hopen Hclose)
    as [rest [l [Hsplit [Hrt Hregion]]]].
  unfold paramsString_of, line_of. rewrite replace_prefix, Hsplit.
  cbv zeta. now rewrite Hrt, Hregion.
Qed.

Lemma parse_line (fullName returnType region : jsstring) :
  word fullName = true -> word returnType = true ->
  ~ In 40%N region -> ~ In 41%N region ->
  exists g nameParts,
    split fullName (js "_") = g :: nameParts
    /\ parseAPILine (line_of fullName returnType region)
       = Ok {| group := g;
               api := {| ret := convertFunctionArgType (Str returnType);
                         name := join nameParts (js "_");
                         params :=
                           filter_Boolean
                             (map parseParameter (split region (js ", "))) |} |}.
Proof.
  intros Hname Hret Hopen Hclose.
  destruct (content_locals fullName returnType region Hname Hret Hopen Hclose)
    as [rest [l [Hsplit [Hrt Hregion]]]].
  destruct (split fullName (js "_")) as [|g nameParts] eqn:Eg;
    [now apply split_not_nil in Eg|].
  exists g, nameParts. split; [reflexivity|].
  unfold parseAPILine, line_of. rewrite replace_prefix, Hsplit, Eg.
  cbv zeta. now rewrite Hrt, Hregion.
Qed.

(** A well-formed line parses to the record of its parts. *)
Lemma parse_annotation (fullName returnType : jsstring)
  (ps : list (jsstring * jsstring)) :
  well_formed fullName returnType ps = true ->
  exists g nameParts,
    split fullName (js "_") = g :: nameParts
    /\ parseAPILine (annotation fullName returnType ps)
       = Ok {| group := g;
               api := {| ret := convertFunctionArgType (Str returnType);
                         name := join nameParts (js "_");
                         params := map normalized ps |} |}.
Proof.
  intros Hwf. unfold well_formed in Hwf.
  apply andb_true_iff in Hwf as [Hwf Hps].
  apply andb_true_iff in Hwf as [Hname Hret].
  destruct (params_text_no_paren ps Hps) as [Hopen Hclose].
  destruct (parse_line fullName returnType (params_text ps)
              Hname Hret Hopen Hclose) as [g [nameParts [Eg Hr]]].
  exists g, nameParts. split; [exact Eg|].
  unfold annotation. rewrite Hr. now rewrite (parse_params_text ps Hps).
Qed.

End Annotation.

(** C4 (amended): a well-formed annotation line parses to a record whose
    parameters are the (type, name) pairs of the line, in order, with
    every type passed through the function-signature table; rendering
    them as in the typedefs yields these normalized pairs, and it yields
    the parameter text of the line itself when no type of the line is
    changed by the table. *)
Theorem parse_then_render (fullName returnType : jsstring)
  (ps : list (jsstring * jsstring)) :
  Grammar.well_formed fullName returnType ps = true ->
  exists r,
    Header.parseAPILine (Grammar.annotation fullName returnType ps) = Ok r
    /\ params (Header.api r) = map normalized ps
    /\ Header.typedef_params (Header.api r)
       = join (map normalized_text ps) (js ", ")
    /\ ((forall p, In p ps ->
           Header.convertFunctionArgType (Str (fst p)) = Str (fst p)) ->
        Header.typedef_params (Header.api r) = Grammar.params_text ps)
    /\ (forall out,
          Header.writeFunctionTypeDefinitions
            [(Header.group r, [Header.api r])] out
          = out ++ nl ++ nl ++ js "// " ++ Header.group r
              ++ js " function type definitions" ++ nl
              ++ js "typedef " ++ toStr (ret (Header.api r)) ++ js " ("
              ++ js "*" ++ Header.group r ++ js "_" ++ name (Header.api r)
              ++ js "_t)(" ++ join (map normalized_text ps) (js ", ")
              ++ js ");" ++ nl).
Proof.
  intros Hwf.
  destruct (parse_annotation fullName returnType ps Hwf)
    as [g [nameParts [_ Hr]]].
  eexists. split; [exact Hr|].
  cbn [Header.api Header.group params ret name].
  split; [reflexivity|].
  assert (Ht : Header.typedef_params
                 {| ret := Header.convertFunctionArgType (Str returnType);
                    name := join nameParts (js "_");
                    params := map normalized ps |}
               = join (map normalized_text ps) (js ", ")).
  { unfold Header.typedef_params. cbn [params]. now rewrite map_map. }
  split; [exact Ht|]. split.
  - intros Hun. rewrite Ht. unfold Grammar.params_text. f_equal.
    apply map_ext_in. intros p Hp.
    unfold normalized_text, Grammar.pair_text. now rewrite (Hun p Hp).
  - intros out.
    unfold Header.writeFunctionTypeDefinitions, forEach, Object_entries,
      appendFileSync.
    cbn [fold_left]. rewrite Ht. cbn [ret name].
    now rewrite <- ?app_assoc.
Qed.

(** The line [OMP_CAPI(Actor_SetPos, bool(int id, float x))], whose types
    are not in the table. *)
Lemma parse_then_render_witness :
  exists r,
    Header.parseAPILine (js "OMP_CAPI(Actor_SetPos, bool(int id, float x))")
    = Ok r
    /\ Header.typedef_params (Header.api r) = js "int id, float x".
Proof.
  destruct (parse_then_render (js "Actor_SetPos") (js "bool")
              [(js "int", js "id"); (js "float", js "x")] eq_refl)
    as [r [Hr [_ [_ [Hsame _]]]]].
  exists r. split; [exact Hr|].
  apply Hsame. intros p [<-|[<-|[]]]; reflexivity.
Defined.

(** C4, as stated, fails on the well-formed line
    [OMP_CAPI(Player_SetName, bool(objectPtr player, StringCharPtr name))]:
    the rendered parameters are [void* player, const char* name], not the
    pairs of the line. *)
Lemma render_changes_mapped_types :
  Grammar.well_formed (js "Player_SetName") (js "bool")
    [(js "objectPtr", js "player"); (js "StringCharPtr", js "name")] = true
  /\ Grammar.annotation (js "Player_SetName") (js "bool")
       [(js "objectPtr", js "player"); (js "StringCharPtr", js "name")]
     = js "OMP_CAPI(Player_SetName, bool(objectPtr player, StringCharPtr name))"
  /\ exists r,
       Header.parseAPILine
         (js "OMP_CAPI(Player_SetName, bool(objectPtr player, StringCharPtr name))")
       = Ok r
       /\ Header.typedef_params (Header.api r)
          = js "void* player, const char* name"
       /\ Header.typedef_params (Header.api r)
          <> js "objectPtr player, StringCharPtr name"
       /\ map (fun prm => (toStr (param_type prm), param_name prm))
            (params (Header.api r))
          <> [(js "objectPtr", js "player"); (js "StringCharPtr", js "name")].
Proof.
  split; [reflexivity|]. split; [reflexivity|].
  eexists. split; [reflexivity|]. split; [reflexivity|].
  split; vm_compute; discriminate.
Qed.

(** Every line of the grammar's shape with nothing between the
    parentheses is a zero-parameter line. *)
Corollary zero_parameter_line (fullName returnType : jsstring) :
  Grammar.word fullName = true -> Grammar.word returnType = true ->
  Header.paramsString_of (Grammar.line_of fullName returnType []) = Some []
  /\ exists r,
       Header.parseAPILine (Grammar.line_of fullName returnType []) = Ok r
       /\ params (Header.api r) = [].
Proof.
  intros Hname Hret.
  split; [apply paramsString_of_line; auto|].
  destruct (parse_line fullName returnType [] Hname Hret)
    as [g [nameParts [_ Hr]]]; auto.
  eexists. split; [exact Hr|reflexivity].
Qed.

(** * Further properties of the generators *)

(** ** Lines, files and tokens *)

Section Scanning.

Import Header.

Lemma search_none_shift (pat s : jsstring) (i j : nat) :
  search pat s i = None -> search pat s j = None.
Proof.
  revert i j. induction s as [|c s IH]; intros i j; simpl.
  - destruct (isPrefix pat []); [discriminate|reflexivity].
  - destruct (isPrefix pat (c :: s)); [discriminate|]. apply IH.
Qed.

Lemma indexOf_absent (s pat : jsstring) :
  indexOf s pat 0 = (-1)%Z <-> search pat s 0 = None.
Proof.
  unfold indexOf.
  assert (Hc : clamp (length s) 0 = 0) by (unfold clamp; lia).
  rewrite Hc, skipn_O.
  destruct (search pat s 0); split; intros H; try reflexivity;
    try discriminate; lia.
Qed.

(** A split yields one segment exactly when the separator does not
    occur. *)
Lemma split_single (c0 : N) (sep' s : jsstring) :
  tl (split s (c0 :: sep')) = [] <-> search (c0 :: sep') s 0 = None.
Proof.
  induction s as [|c s IH].
  - simpl. tauto.
  - destruct (isPrefix (c0 :: sep') (c :: s)) eqn:E.
    + rewrite (search_here _ _ 0 E).
      apply isPrefix_inv in E as [t ->]. rewrite split_sep. simpl.
      split; [|discriminate]. intros H. now apply split_not_nil in H.
    + rewrite split_cons by exact E.
      cbn [search]. rewrite E.
      destruct (split s (c0 :: sep')) as [|h l] eqn:Es;
        [now apply split_not_nil in Es|].
      simpl in *. rewrite IH. split; apply search_none_shift.
Qed.

Lemma parseAPILine_error (line : jsstring) :
  parseAPILine line = TypeError
  <-> tl (split (replace line API_PREFIX []) (js ", ")) = [].
Proof.
  unfold parseAPILine.
  destruct (split (replace line API_PREFIX []) (js ", "))
    as [|fullName [|rest l]] eqn:E.
  - now apply split_not_nil in E.
  - simpl. tauto.
  - destruct (split fullName (js "_")) as [|g nameParts] eqn:Eg;
      [now apply split_not_nil in Eg|].
    simpl. split; discriminate.
Qed.

(** Every segment of a split on one code unit is free of it. *)
Lemma split_unit_segments (c : N) (s seg : jsstring) :
  In seg (split s [c]) -> ~ In c seg.
Proof.
  revert seg. induction s as [|x s IH]; intros seg.
  - simpl. intros [<-|[]]. tauto.
  - destruct (N.eq_dec x c) as [->|Hx].
    + change (c :: s) with ([c] ++ s). rewrite split_sep.
      intros [<-|H]; [tauto|now apply IH].
    + rewrite split_cons by (apply isPrefix_head; congruence).
      destruct (split s [c]) as [|h l] eqn:Es;
        [now apply split_not_nil in Es|].
      simpl. intros [<-|H].
      * intros [Hc|Hc]; [congruence|].
        apply (IH h); [now left|exact Hc].
      * apply IH. now right.
Qed.

Lemma parsed_name_no_space (tok : jsstring) (p : Param) :
  parseParameter tok = Some p -> ~ In 32%N (param_name p).
Proof.
  unfold parseParameter.
  destruct (length (split (trim tok) (js " ")) <? 2)%nat; [discriminate|].
  intros H. injection H as <-. cbn [param_name].
  destruct (nth_in_or_default 1 (split (trim tok) (js " ")) [])
    as [Hin|Hd]; [|rewrite Hd; tauto].
  exact (split_unit_segments 32%N _ _ Hin).
Qed.

Lemma parsed_names_no_space (toks : list jsstring) :
  Forall (fun p => ~ In 32%N (param_name p))
    (filter_Boolean (map parseParameter toks)).
Proof.
  induction toks as [|tok toks IH]; [constructor|].
  simpl. destruct (parseParameter tok) as [p|] eqn:E; [|exact IH].
  constructor; [exact (parsed_name_no_space tok p E)|exact IH].
Qed.

End Scanning.

Lemma processFile_records (lines : list jsstring)
  (rs : list Header.Parsed) :
  Header.processFile lines = Ok rs
  <-> Forall2 (fun l r => Header.parseAPILine l = Ok r)
        (filter (fun l => startsWith l Header.API_PREFIX) lines) rs.
Proof.
  revert rs. induction lines as [|line lines IH]; intros rs;
    cbn [Header.processFile filter].
  - split.
    + intros H. injection H as <-. constructor.
    + intros H. inversion H. reflexivity.
  - destruct (startsWith line Header.API_PREFIX); [|apply IH].
    destruct (Header.parseAPILine line) as [r|] eqn:Er; cbn [bind].
    + destruct (Header.processFile lines) as [apis|]; cbn [bind].
      * split.
        -- intros H. injection H as <-. constructor; [exact Er|].
           now apply IH.
        -- intros H. inversion H as [|? r' ? rs' Hr Hrs]; subst.
           rewrite Er in Hr. injection Hr as <-.
           apply IH in Hrs. now injection Hrs as <-.
      * split; [discriminate|].
        intros H. inversion H as [|? r' ? rs' Hr Hrs]; subst.
        apply IH in Hrs. discriminate.
    + split; [discriminate|].
      intros H. inversion H as [|? r' ? rs' Hr Hrs]; subst.
      rewrite Er in Hr. discriminate.
Qed.

(** X1: [processFile] returns the records of exactly the lines that
    start with the prefix, in the order of the file: it succeeds with
    [rs] if and only if [rs] lists the parse results of these lines.
    Lines that hold the prefix elsewhere, or not at all, are skipped. *)
Theorem processFile_selects_prefixed (lines : list jsstring)
  (rs : list Header.Parsed) :
  Header.processFile lines = Ok rs
  <-> Forall2 (fun l r => Header.parseAPILine l = Ok r)
        (filter (fun l => startsWith l Header.API_PREFIX) lines) rs.
Proof. exact (processFile_records lines rs). Qed.

(** X2: [parseAPILine] throws exactly on the lines whose content, the
    line without the first occurrence of the prefix, holds no [", "];
    on every other line it returns a record. *)
Theorem parseAPILine_throws_iff (line : jsstring) :
  Header.parseAPILine line = TypeError
  <-> indexOf (replace line Header.API_PREFIX []) (js ", ") 0 = (-1)%Z.
Proof.
  rewrite parseAPILine_error, indexOf_absent.
  exact (split_single 44%N [32%N] _).
Qed.

(** X3: [processFile] throws exactly when some line of the file starts
    with the prefix and holds no [", "] after it. *)
Theorem processFile_throws_iff (lines : list jsstring) :
  Header.processFile lines = TypeError
  <-> exists line,
        In line lines
        /\ startsWith line Header.API_PREFIX = true
        /\ indexOf (replace line Header.API_PREFIX []) (js ", ") 0 = (-1)%Z.
Proof.
  induction lines as [|line lines IH]; cbn [Header.processFile In].
  - split; [discriminate|]. intros [l [[] _]].
  - destruct (startsWith line Header.API_PREFIX) eqn:Es.
    + destruct (Header.parseAPILine line) as [r|] eqn:Er; cbn [bind].
      * destruct (Header.processFile lines) as [apis|]; cbn [bind].
        -- split; [discriminate|].
           intros [l [[<-|Hin] [Hs Hi]]].
           ++ assert (Hc : Header.parseAPILine line = TypeError).
              { apply parseAPILine_error, (split_single 44%N [32%N]).
                now apply indexOf_absent. }
              congruence.
           ++ assert (Hc : Ok apis = @TypeError (list Header.Parsed))
                by (apply IH; now exists l).
              discriminate.
        -- split; [|reflexivity]. intros _.
           destruct (proj1 IH eq_refl) as [l [Hin H]].
           exists l. split; [now right|exact H].
      * split; [|reflexivity]. intros _.
        exists line. split; [now left|]. split; [exact Es|].
        apply indexOf_absent. apply (split_single 44%N [32%N]).
        now apply parseAPILine_error.
    + rewrite IH. split.
      * intros [l [Hin H]]. exists l. split; [now right|exact H].
      * intros [l [[<-|Hin] [Hs Hi]]]; [congruence|]. now exists l.
Qed.

(** X4: [parseParameter] drops a token exactly when its trimmed text
    holds no space; the empty token and one-word tokens are the dropped
    ones. *)
Theorem parseParameter_drops_iff (p : jsstring) :
  Header.parseParameter p = None <-> ~ In 32%N (trim p).
Proof.
  unfold Header.parseParameter.
  pose proof (split_unit_tail 32%N (trim p)) as Ht.
  change [32%N] with (js " ") in Ht.
  destruct (split (trim p) (js " ")) as [|h [|h2 l]] eqn:E.
  - now apply split_not_nil in E.
  - simpl in *. split; [|reflexivity]. intros _ Hin.
    apply Ht in Hin. congruence.
  - simpl in *. split; [discriminate|]. intros Hn. exfalso.
    apply Hn, Ht. discriminate.
Qed.

(** X5: the parameter names of every parsed record hold no space. *)
Theorem parameter_names_without_space (line : jsstring) (r : Header.Parsed) :
  Header.parseAPILine line = Ok r ->
  Forall (fun p => ~ In 32%N (param_name p)) (params (Header.api r)).
Proof.
  unfold Header.parseAPILine.
  destruct (split (replace line Header.API_PREFIX []) (js ", "))
    as [|fullName [|rest l]]; try discriminate.
  destruct (split fullName (js "_")) as [|g nameParts]; [discriminate|].
  intros H. injection H as <-. cbn [Header.api params].
  apply parsed_names_no_space.
Qed.

(** The line [OMP_CAPI(Actor_Move, bool(unsigned int x, float  y))]. *)
Lemma parameter_names_without_space_witness :
  exists r,
    Header.parseAPILine
      (js "OMP_CAPI(Actor_Move, bool(unsigned int x, float  y))") = Ok r
    /\ Forall (fun p => ~ In 32%N (param_name p)) (params (Header.api r)).
Proof.
  eexists. split; [reflexivity|].
  exact (parameter_names_without_space
           (js "OMP_CAPI(Actor_Move, bool(unsigned int x, float  y))")
           _ eq_refl).
Defined.

(** ** Groups, components and the two tables *)

Section GroupsAndTables.

(** What the two line parsers share on one line. *)
Lemma parsers_related (line : jsstring) :
  match Header.parseAPILine line, Json.parseAPILine line with
  | Ok h, Ok j =>
      Json.component j = Header.group h
      /\ ~ In 95%N (Header.group h)
      /\ map param_name (params (Header.api h))
         = map param_name (params (Json.api j))
      /\ (In 95%N (name (Json.api j)) ->
          name (Json.api j)
          = Header.group h ++ js "_" ++ name (Header.api h))
      /\ (~ In 95%N (name (Json.api j)) ->
          name (Json.api j) = Header.group h /\ name (Header.api h) = [])
  | TypeError, TypeError => True
  | _, _ => False
  end.
Proof.
  unfold Header.parseAPILine, Json.parseAPILine.
  change Json.API_PREFIX with Header.API_PREFIX.
  destruct (split (replace line Header.API_PREFIX []) (js ", "))
    as [|fullName [|rest l]]; try exact I.
  destruct (split fullName (js "_")) as [|g nameParts] eqn:E;
    [now apply split_not_nil in E|].
  cbn [Header.api Json.api params name Header.group Json.component nth].
  split; [reflexivity|]. split; [|split; [|split]].
  - apply (split_unit_segments 95%N fullName).
    change [95%N] with (js "_"). rewrite E. now left.
  - apply parameter_names_agree.
  - now apply group_and_name.
  - intros Hn.
    pose proof (split_unit_tail 95%N fullName) as Ht.
    change [95%N] with (js "_") in Ht. rewrite E in Ht. simpl in Ht.
    destruct nameParts as [|n l'].
    + split; [|reflexivity].
      rewrite <- (join_split 95%N [] fullName) at 1.
      change [95%N] with (js "_"). now rewrite E.
    + exfalso. apply Hn, Ht. discriminate.
Qed.

Lemma key_own {A} (o : obj A) (k : jsstring) :
  In k (Object_keys o) <-> own o k <> None.
Proof.
  unfold Object_keys. induction o as [|[k0 v0] o IH]; simpl.
  - split; [tauto|congruence].
  - destruct (Str.eqb k0 k) eqn:E.
    + apply eqb_eq in E. split; [discriminate|now left].
    + apply eqb_neq in E. rewrite <- IH. split; [intros [?|?]|]; tauto.
Qed.

(** A normalized token is never a key of a closed table whose results
    are all non-empty. *)
Lemma normalized_not_key (tbl : obj jsstring) (t k : jsstring) :
  closed_table tbl = true ->
  forallb (fun kv => truthy (Str (snd kv))) tbl = true ->
  In k (Object_keys tbl) ->
  get_or_self tbl (Str t) <> Str k.
Proof.
  intros Hc Ht Hk. apply key_own in Hk.
  unfold get_or_self.
  destruct (get tbl (Str t)) as [w|] eqn:Eg.
  - pose proof (closed_table_result tbl _ _ Hc Eg) as Hw.
    assert (Htr : truthy w = true).
    { unfold get in Eg. simpl in Eg.
      destruct (own tbl t) as [s|] eqn:Eo.
      - injection Eg as <-. destruct (own_In _ _ _ Eo) as [k' Hin].
        rewrite forallb_forall in Ht. exact (Ht _ Hin).
      - destruct (inherited t); [|discriminate]. now injection Eg as <-. }
    rewrite Htr. intros ->. unfold get in Hw. simpl in Hw.
    destruct (own tbl k); [discriminate|congruence].
  - intros H. injection H as ->. unfold get in Eg. simpl in Eg.
    destruct (own tbl k); [discriminate|congruence].
Qed.

End GroupsAndTables.

(** X6: the group of every parsed record holds no underscore; the
    component of the JSON emitter on the same line is this group; and when
    the full name (the flat name of the JSON emitter) holds no underscore,
    the group is the whole full name and the name of the header record is
    empty. *)
Theorem group_is_first_segment (line : jsstring) (r : Header.Parsed) :
  Header.parseAPILine line = Ok r ->
  ~ In 95%N (Header.group r)
  /\ exists j,
       Json.parseAPILine line = Ok j
       /\ Json.component j = Header.group r
       /\ (~ In 95%N (name (Json.api j)) ->
           name (Json.api j) = Header.group r /\ name (Header.api r) = []).
Proof.
  intros H. pose proof (parsers_related line) as Hr. rewrite H in Hr.
  destruct (Json.parseAPILine line) as [j|]; [|contradiction].
  destruct Hr as [Hc [Hg [_ [_ Hn]]]].
  split; [exact Hg|]. exists j.
  split; [reflexivity|]. split; [exact Hc|exact Hn].
Qed.

(** The line [OMP_CAPI(Version, int())], whose full name has no
    underscore. *)
Lemma group_is_first_segment_witness :
  exists r,
    Header.parseAPILine (js "OMP_CAPI(Version, int())") = Ok r
    /\ Header.group r = js "Version"
    /\ ~ In 95%N (Header.group r).
Proof.
  eexists. split; [reflexivity|]. split; [reflexivity|].
  exact (proj1 (group_is_first_segment (js "OMP_CAPI(Version, int())")
                  _ eq_refl)).
Defined.

(** X7: no raw alias survives normalization: for each of the three
    tables, the normalized form of a type token is never a key of the
    table. *)
Theorem normalized_is_no_alias (t k : jsstring) :
  (In k (Object_keys Header.TYPE_MAPPINGS_function) ->
   Header.convertFunctionArgType (Str t) <> Str k)
  /\ (In k (Object_keys Header.TYPE_MAPPINGS_event) ->
      Header.convertEventArgType (Str t) <> Str k)
  /\ (In k (Object_keys Json.TYPE_MAPPINGS) ->
      Json.convertTypeName (Str t) <> Str k).
Proof.
  repeat split; intros Hk; apply normalized_not_key;
    try exact Hk; vm_compute; reflexivity.
Qed.

(** The token [objectPtr] and the key [voidPtr] of the function-signature
    table. *)
Lemma normalized_is_no_alias_witness :
  In (js "voidPtr") (Object_keys Header.TYPE_MAPPINGS_function)
  /\ Header.convertFunctionArgType (Str (js "objectPtr")) <> Str (js "voidPtr").
Proof.
  assert (Hk : In (js "voidPtr") (Object_keys Header.TYPE_MAPPINGS_function))
    by (vm_compute; tauto).
  split; [exact Hk|].
  exact (proj1 (normalized_is_no_alias (js "objectPtr") (js "voidPtr")) Hk).
Defined.

(** X8: the table of the JSON emitter and the function-signature table
    of the header generator normalize a type token to the same result
    exactly when the token is none of [OutputStringViewPtr],
    [OutputStringBufferPtr] and [ComponentVersion]. *)
Theorem tables_agree_iff (t : jsstring) :
  Json.convertTypeName (Str t) = Header.convertFunctionArgType (Str t)
  <-> ~ In t [ js "OutputStringViewPtr"; js "OutputStringBufferPtr";
               js "ComponentVersion" ].
Proof.
  split.
  - intros H [<-|[<-|[<-|[]]]]; vm_compute in H; discriminate.
  - intros Hn.
    unfold Json.convertTypeName, Header.convertFunctionArgType,
      get_or_self, get.
    cbn [toStr own Json.TYPE_MAPPINGS Header.TYPE_MAPPINGS_function].
    repeat match goal with
           | |- context [Str.eqb ?a t] =>
               let E := fresh "E" in
               destruct (Str.eqb a t) eqn:E;
               [apply eqb_eq in E; try reflexivity;
                exfalso; apply Hn; rewrite <- E; simpl; tauto|clear E]
           end.
    reflexivity.
Qed.

(** ** Invariants of the grouped model *)

Section Model.

Import Header.

Lemma push_all_app (o : obj (list Api)) (a b : list Parsed) :
  push_all o (a ++ b) = try o1 <- push_all o a ;; push_all o1 b.
Proof.
  revert o. induction a as [|r a IH]; intros o; [reflexivity|].
  cbn [app push_all].
  destruct (push_api o (group r) (api r)) as [o1|]; [|reflexivity].
  cbn [bind]. apply IH.
Qed.

(** Reading all files first and grouping afterwards gives the run. *)
Lemma collect_files_factors (files : tree) (o : obj (list Api)) :
  collect_files files o
  = match all_records files with
    | Ok recs => push_all o recs
    | TypeError => TypeError
    end.
Proof.
  revert o. induction files as [|[path lines] files IH]; intros o;
    [reflexivity|].
  cbn [collect_files all_records].
  destruct (processFile lines) as [apis|]; [|reflexivity]. cbn [bind].
  destruct (all_records files) as [others|] eqn:Ea; cbn [bind].
  - rewrite push_all_app.
    destruct (push_all o apis) as [o1|]; [|reflexivity].
    cbn [bind]. apply IH.
  - destruct (push_all o apis) as [o1|]; [|reflexivity].
    cbn [bind]. apply IH.
Qed.

Lemma push_all_invariant (P : obj (list Api) -> Prop) :
  (forall o g a o', P o -> push_api o g a = Ok o' -> P o') ->
  forall recs o o', P o -> push_all o recs = Ok o' -> P o'.
Proof.
  intros Hstep. induction recs as [|r recs IH]; intros o o' Ho H;
    cbn [push_all] in H.
  - now injection H as <-.
  - destruct (push_api o (group r) (api r)) as [o1|] eqn:E; [|discriminate].
    cbn [bind] in H. exact (IH o1 o' (Hstep _ _ _ _ Ho E) H).
Qed.

Lemma collect_invariant (P : obj (list Api) -> Prop) :
  P [] ->
  (forall o g a o', P o -> push_api o g a = Ok o' -> P o') ->
  forall dir o, collectAPIs dir = Ok o -> P o.
Proof.
  intros Hnil Hstep dir o. unfold collectAPIs.
  rewrite collect_files_factors.
  destruct (all_records _) as [recs|]; [|discriminate].
  exact (push_all_invariant P Hstep recs [] o Hnil).
Qed.

Lemma define_split {A} (o : obj A) (g : jsstring) (v : A) :
  exists l1 l2,
    o = l1 ++ l2 /\ define o g v = l1 ++ (g, v) :: l2
    /\ (arrayIndex g = None -> l2 = []).
Proof.
  destruct (arrayIndex g) as [n|] eqn:Ha.
  - induction o as [|[k0 v0] o IH].
    + exists [], []. simpl. rewrite Ha. repeat split; try discriminate.
    + cbn [define]. rewrite Ha.
      destruct (arrayIndex k0) as [n0|].
      * destruct (n0 <? n)%N.
        -- destruct IH as [l1 [l2 [Ho [Hd _]]]].
           exists ((k0, v0) :: l1), l2. simpl. rewrite <- Ho, Hd.
           repeat split; try discriminate.
        -- exists [], ((k0, v0) :: o). repeat split; try discriminate.
      * exists [], ((k0, v0) :: o). repeat split; try discriminate.
  - exists o, []. rewrite app_nil_r.
    repeat split. destruct o; simpl; now rewrite Ha.
Qed.

Lemma keys_update {A} (o : obj A) (g : jsstring) (v : A) :
  Object_keys (update o g v) = Object_keys o.
Proof.
  unfold Object_keys. induction o as [|[k0 v0] o IH]; [reflexivity|].
  simpl. destruct (Str.eqb k0 g); simpl; [reflexivity|now rewrite IH].
Qed.

Lemma keys_define {A} (o : obj A) (g : jsstring) (v : A) :
  Permutation (Object_keys (define o g v)) (g :: Object_keys o).
Proof.
  destruct (define_split o g v) as [l1 [l2 [Ho [Hd _]]]].
  unfold Object_keys. rewrite Hd.
  replace (map fst o) with (map fst (l1 ++ l2)) by (now rewrite <- Ho).
  rewrite !map_app. simpl. symmetry. apply Permutation_middle.
Qed.

Lemma records_update (o : obj (list Api)) (g : jsstring) (l : list Api)
  (a : Api) :
  own o g = Some l ->
  length (flat_map snd (update o g (l ++ [a])))
  = S (length (flat_map snd o)).
Proof.
  induction o as [|[k0 v0] o IH]; simpl; [discriminate|].
  destruct (Str.eqb k0 g).
  - intros H. injection H as ->. simpl. rewrite !length_app. simpl. lia.
  - intros H. simpl. rewrite !length_app, (IH H). lia.
Qed.

Lemma records_define (o : obj (list Api)) (g : jsstring) (a : Api) :
  length (flat_map snd (define o g [a])) = S (length (flat_map snd o)).
Proof.
  destruct (define_split o g [a]) as [l1 [l2 [Ho [Hd _]]]].
  rewrite Hd, Ho, !flat_map_app. simpl. rewrite !length_app. simpl. lia.
Qed.

Lemma push_api_count (o o' : obj (list Api)) (g : jsstring) (a : Api) :
  push_api o g a = Ok o' ->
  length (flat_map snd o') = S (length (flat_map snd o)).
Proof.
  unfold push_api. destruct (own o g) as [l|] eqn:E.
  - intros H. injection H as <-. now apply records_update.
  - destruct (inherited g); [discriminate|].
    intros H. injection H as <-. apply records_define.
Qed.

Lemma push_all_count (recs : list Parsed) (o o' : obj (list Api)) :
  push_all o recs = Ok o' ->
  length (flat_map snd o') = length (flat_map snd o) + length recs.
Proof.
  revert o. induction recs as [|r recs IH]; intros o H; cbn [push_all] in H.
  - injection H as <-. simpl. lia.
  - destruct (push_api o (group r) (api r)) as [o1|] eqn:E; [|discriminate].
    cbn [bind] in H. rewrite (IH o1 H), (push_api_count _ _ _ _ E).
    simpl. lia.
Qed.

Lemma all_records_length (files : tree) (recs : list Parsed) :
  all_records files = Ok recs ->
  length recs
  = length (filter (fun l => startsWith l API_PREFIX) (flat_map snd files)).
Proof.
  revert recs. induction files as [|[path lines] files IH]; intros recs H;
    cbn [all_records] in H.
  - now injection H as <-.
  - destruct (processFile lines) as [apis|] eqn:Ep; [|discriminate].
    cbn [bind] in H.
    destruct (all_records files) as [others|]; [|discriminate].
    cbn [bind] in H. injection H as <-.
    cbn [flat_map snd]. rewrite filter_app, !length_app, (IH others eq_refl).
    f_equal. apply processFile_records in Ep.
    symmetry. exact (Forall2_length Ep).
Qed.

Lemma push_api_nodup (o o' : obj (list Api)) (g : jsstring) (a : Api) :
  NoDup (Object_keys o) -> push_api o g a = Ok o' -> NoDup (Object_keys o').
Proof.
  unfold push_api. intros Hn. destruct (own o g) as [l|] eqn:E.
  - intros H. injection H as <-. now rewrite keys_update.
  - destruct (inherited g); [discriminate|].
    intros H. injection H as <-.
    apply (Permutation_NoDup (Permutation_sym (keys_define o g [a]))).
    constructor; [|exact Hn].
    intros Hin. apply key_own in Hin. congruence.
Qed.

End Model.

(** X9: the run of [collectAPIs] is the grouping of the records of all
    selected files: reading one file and grouping its records before the
    next file is read gives the same model, and the same failure, as
    parsing every selected file first. *)
Theorem collectAPIs_factors (dir : Header.tree) :
  Header.collectAPIs dir
  = match all_records (selected dir) with
    | Ok recs => Header.push_all [] recs
    | TypeError => TypeError
    end.
Proof. exact (collect_files_factors (selected dir) []). Qed.

(** X10: in the grouped model of every completed run each group occurs
    once, so the header has one dispatch table per group. *)
Theorem group_keys_are_unique (dir : Header.tree) (o : obj (list Api)) :
  Header.collectAPIs dir = Ok o -> NoDup (Object_keys o).
Proof.
  apply (collect_invariant (fun o => NoDup (Object_keys o))).
  - constructor.
  - intros o0 g a o' Hn H. exact (push_api_nodup o0 o' g a Hn H).
Qed.

Lemma group_keys_are_unique_witness :
  Header.collectAPIs duplicate_tree
  = Ok [(js "Actor", [earlier_record; later_record])]
  /\ NoDup (Object_keys [(js "Actor", [earlier_record; later_record])]).
Proof.
  split; [reflexivity|].
  exact (group_keys_are_unique duplicate_tree _ eq_refl).
Defined.

(** X11: a completed run loses and invents no record: the grouped model
    holds as many records as the selected files have lines that start
    with the prefix. *)
Theorem record_count_is_line_count (dir : Header.tree) (o : obj (list Api)) :
  Header.collectAPIs dir = Ok o ->
  length (flat_map snd (Object_entries o)) = length (annotation_lines dir).
Proof.
  unfold Header.collectAPIs. fold (selected dir).
  rewrite collect_files_factors.
  destruct (all_records (selected dir)) as [recs|] eqn:Er; [|discriminate].
  intros H. unfold Object_entries, annotation_lines.
  rewrite (push_all_count _ _ _ H), (all_records_length _ _ Er).
  reflexivity.
Qed.

Lemma record_count_is_line_count_witness :
  length (flat_map snd
            (Object_entries [(js "Actor", [earlier_record; later_record])]))
  = length (annotation_lines duplicate_tree).
Proof.
  exact (record_count_is_line_count duplicate_tree _ eq_refl).
Defined.

(** ** Order of the groups and failure of the run *)

Section KeyOrder.

Import Header.

Lemma existsb_key (ks : list jsstring) (g : jsstring) :
  existsb (Str.eqb g) ks = true <-> In g ks.
Proof.
  rewrite existsb_exists. split.
  - intros [k [Hin He]]. apply eqb_eq in He. now subst.
  - intros Hin. exists g. split; [exact Hin|now apply eqb_eq].
Qed.

Lemma push_api_keys (o o' : obj (list Api)) (g : jsstring) (a : Api) :
  arrayIndex g = None -> push_api o g a = Ok o' ->
  Object_keys o' = add_key (Object_keys o) g.
Proof.
  unfold push_api, add_key. intros Ha.
  destruct (own o g) as [l|] eqn:E.
  - intros H. injection H as <-. rewrite keys_update.
    assert (Hin : In g (Object_keys o)) by (apply key_own; congruence).
    apply existsb_key in Hin. now rewrite Hin.
  - destruct (inherited g); [discriminate|].
    intros H. injection H as <-.
    destruct (existsb (Str.eqb g) (Object_keys o)) eqn:Ex.
    + apply existsb_key, key_own in Ex. congruence.
    + destruct (define_split o g [a]) as [l1 [l2 [Ho [Hd Hl2]]]].
      rewrite (Hl2 Ha), app_nil_r in Ho. subst l1.
      rewrite Hd, (Hl2 Ha). unfold Object_keys. now rewrite map_app.
Qed.

Lemma push_all_keys (recs : list Parsed) (o o' : obj (list Api)) :
  Forall (fun r => arrayIndex (group r) = None) recs ->
  push_all o recs = Ok o' ->
  Object_keys o' = fold_left add_key (map group recs) (Object_keys o).
Proof.
  revert o. induction recs as [|r recs IH]; intros o Hall H;
    cbn [push_all] in H.
  - now injection H as <-.
  - inversion Hall as [|? ? Hr Hrecs]; subst.
    destruct (push_api o (group r) (api r)) as [o1|] eqn:E; [|discriminate].
    cbn [bind] in H. rewrite (IH o1 Hrecs H). simpl.
    now rewrite (push_api_keys _ _ _ _ Hr E).
Qed.

Lemma forallb_keys_define {A} (f : jsstring -> bool) (o : obj A)
  (g : jsstring) (v : A) :
  f g = true -> forallb f (Object_keys o) = true ->
  forallb f (Object_keys (define o g v)) = true.
Proof.
  intros Hg Ho. rewrite forallb_forall in *. intros k Hin.
  apply (Permutation_in _ (keys_define o g v)) in Hin as [<-|Hin];
    [exact Hg|now apply Ho].
Qed.

Lemma ordered_snoc (ks : list jsstring) (g : jsstring) :
  arrayIndex g = None -> enumeration_ordered ks = true ->
  enumeration_ordered (ks ++ [g]) = true.
Proof.
  intros Ha. induction ks as [|k ks IH]; intros H.
  - simpl. now rewrite Ha.
  - cbn [app enumeration_ordered] in *.
    apply andb_true_iff in H as [Hhead Htail].
    apply andb_true_iff. split; [|now apply IH].
    destruct (arrayIndex k); rewrite forallb_app, Hhead; simpl;
      unfold is_index; now rewrite Ha.
Qed.

Lemma define_ordered {A} (o : obj A) (g : jsstring) (v : A) :
  enumeration_ordered (Object_keys o) = true ->
  enumeration_ordered (Object_keys (define o g v)) = true.
Proof.
  destruct (arrayIndex g) as [n|] eqn:Ha.
  - induction o as [|[k0 v0] o IH]; intros Ho.
    + simpl. rewrite Ha. simpl. now rewrite Ha.
    + cbn [define]. rewrite Ha.
      change (Object_keys ((k0, v0) :: o)) with (k0 :: Object_keys o) in Ho.
      cbn [enumeration_ordered] in Ho.
      apply andb_true_iff in Ho as [Hhead Htail].
      destruct (arrayIndex k0) as [n0|] eqn:E0.
      * destruct (n0 <? n)%N eqn:Elt.
        -- change (Object_keys ((k0, v0) :: define o g v))
             with (k0 :: Object_keys (define o g v)).
           cbn [enumeration_ordered]. rewrite E0.
           apply andb_true_iff. split; [|now apply IH].
           apply forallb_keys_define; [|exact Hhead].
           rewrite Ha. apply N.leb_le. apply N.ltb_lt in Elt. lia.
        -- change (Object_keys ((g, v) :: (k0, v0) :: o))
             with (g :: k0 :: Object_keys o).
           cbn [enumeration_ordered]. rewrite Ha, E0, Hhead, Htail.
           rewrite !andb_true_r. cbn [forallb]. rewrite E0.
           apply andb_true_iff. split.
           ++ apply N.leb_le. apply N.ltb_ge in Elt. exact Elt.
           ++ rewrite forallb_forall in *. intros k Hin.
              specialize (Hhead k Hin).
              destruct (arrayIndex k) as [nk|]; [|reflexivity].
              apply N.leb_le. apply N.leb_le in Hhead.
              apply N.ltb_ge in Elt. lia.
      * change (Object_keys ((g, v) :: (k0, v0) :: o))
          with (g :: k0 :: Object_keys o).
        cbn [enumeration_ordered]. rewrite Ha, E0, Hhead, Htail.
        rewrite !andb_true_r. cbn [forallb]. rewrite E0. cbn [andb].
        rewrite forallb_forall in *. intros k Hin.
        specialize (Hhead k Hin). unfold is_index in Hhead.
        now destruct (arrayIndex k).
  - intros Ho.
    destruct (define_split o g v) as [l1 [l2 [Hs [Hd Hl2]]]].
    rewrite (Hl2 Ha), app_nil_r in Hs. subst l1.
    rewrite Hd, (Hl2 Ha). unfold Object_keys. rewrite map_app.
    now apply ordered_snoc.
Qed.

Lemma push_api_ordered (o o' : obj (list Api)) (g : jsstring) (a : Api) :
  enumeration_ordered (Object_keys o) = true ->
  push_api o g a = Ok o' ->
  enumeration_ordered (Object_keys o') = true.
Proof.
  unfold push_api. intros Ho. destruct (own o g) as [l|].
  - intros H. injection H as <-. now rewrite keys_update.
  - destruct (inherited g); [discriminate|].
    intros H. injection H as <-. now apply define_ordered.
Qed.


End KeyOrder.

(** X12: when no group of the run is an array index, the groups of the
    grouped model stand in the order in which they first appear in the
    records, that is in file order and then line order. *)
Theorem groups_in_order_of_first_appearance
  (dir : Header.tree) (o : obj (list Api)) (recs : list Header.Parsed) :
  Header.collectAPIs dir = Ok o ->
  all_records (selected dir) = Ok recs ->
  Forall (fun r => arrayIndex (Header.group r) = None) recs ->
  Object_keys o = first_seen (map Header.group recs).
Proof.
  unfold Header.collectAPIs. fold (selected dir).
  rewrite collect_files_factors.
  intros H Hr Hall. rewrite Hr in H.
  exact (push_all_keys recs [] o Hall H).
Qed.

(** The run on [two_group_tree]: [Vehicle] first, then [Actor]. *)
Lemma groups_in_order_of_first_appearance_witness :
  Header.collectAPIs two_group_tree = Ok two_group_model
  /\ Object_keys two_group_model = [js "Vehicle"; js "Actor"]
  /\ exists recs,
       all_records (selected two_group_tree) = Ok recs
       /\ Object_keys two_group_model = first_seen (map Header.group recs).
Proof.
  split; [reflexivity|]. split; [reflexivity|].
  eexists. split; [reflexivity|].
  apply (groups_in_order_of_first_appearance two_group_tree two_group_model
           _ eq_refl eq_refl).
  repeat constructor.
Defined.

(** X13: in the grouped model of every completed run the groups whose
    name is an array index stand before all other groups, in ascending
    order of their numbers, wherever their lines stand in the files. *)
Theorem index_groups_come_first (dir : Header.tree) (o : obj (list Api)) :
  Header.collectAPIs dir = Ok o ->
  enumeration_ordered (Object_keys o) = true.
Proof.
  apply (collect_invariant
           (fun o => enumeration_ordered (Object_keys o) = true)).
  - reflexivity.
  - intros o0 g a o' Ho H. exact (push_api_ordered o0 o' g a Ho H).
Qed.

(** The groups [Actor], [7], [10], [2] of one file are enumerated as
    [2], [7], [10], [Actor]. *)
Lemma index_groups_come_first_witness :
  exists o,
    Header.collectAPIs
      [ (js "APIs.cpp", [ js "OMP_CAPI(Actor_A, int())";
                          js "OMP_CAPI(7_B, int())";
                          js "OMP_CAPI(10_C, int())";
                          js "OMP_CAPI(2_D, int())" ]) ] = Ok o
    /\ Object_keys o = [js "2"; js "7"; js "10"; js "Actor"]
    /\ enumeration_ordered (Object_keys o) = true.
Proof.
  eexists. split; [reflexivity|]. split; [reflexivity|].
  exact (index_groups_come_first
           [ (js "APIs.cpp", [ js "OMP_CAPI(Actor_A, int())";
                               js "OMP_CAPI(7_B, int())";
                               js "OMP_CAPI(10_C, int())";
                               js "OMP_CAPI(2_D, int())" ]) ] _ eq_refl).
Defined.


(** A line with the group [constructor] aborts the run. *)
Example constructor_group_throws :
  Header.collectAPIs
    [ (js "APIs.cpp", [ js "OMP_CAPI(constructor_Create, int())" ]) ]
  = TypeError.
Proof. reflexivity. Qed.

(** ** The whole header *)

Section WholeHeader.

Import Header.

Lemma join_empty_separator {A} (text : A -> jsstring) (l : list A) :
  join (map text l) [] = flat_map text l.
Proof.
  induction l as [|x l IH]; [reflexivity|].
  destruct l as [|y l].
  - simpl. now rewrite app_nil_r.
  - change (join (map text (x :: y :: l)) [])
      with (text x ++ [] ++ join (map text (y :: l)) []).
    now rewrite IH.
Qed.

Lemma writeEntityTypeDefinitions_text (out : file) :
  writeEntityTypeDefinitions out = out ++ entity_aliases.
Proof.
  unfold writeEntityTypeDefinitions, appendFileSync, entity_aliases.
  now rewrite join_empty_separator.
Qed.

Lemma writeFunctionTypeDefinitions_text (apis : obj (list Api)) (out : file) :
  writeFunctionTypeDefinitions apis out
  = out ++ flat_map typedef_block (Object_entries apis).
Proof.
  unfold writeFunctionTypeDefinitions, appendFileSync.
  apply (forEach_appends typedef_block).
  intros [group functions] o. unfold typedef_block. cbn [fst snd].
  rewrite (forEach_appends (typedef_line group)).
  - now rewrite <- ?app_assoc.
  - intros func o'. reflexivity.
Qed.

Lemma writeStructDefinitions_text (apis : obj (list Api)) (out : file) :
  writeStructDefinitions apis out
  = out ++ flat_map struct_block (Object_entries apis).
Proof.
  unfold writeStructDefinitions, appendFileSync.
  apply (forEach_appends struct_block).
  intros [group functions] o. unfold struct_block. cbn [fst snd].
  rewrite (forEach_appends (field_line group)).
  - now rewrite <- ?app_assoc.
  - intros func o'. reflexivity.
Qed.

Lemma writeMainAPIStruct_text (apis : obj (list Api)) (out : file) :
  writeMainAPIStruct apis out = out ++ main_struct apis.
Proof.
  unfold writeMainAPIStruct, appendFileSync, main_struct.
  rewrite (forEach_appends table_line).
  - now rewrite <- ?app_assoc.
  - intros group o. reflexivity.
Qed.

Lemma writeInitializationFunction_text (apis : obj (list Api)) (out : file) :
  writeInitializationFunction apis out
  = out ++ INITIALIZER_HEAD
        ++ flat_map Initializer.group_block (Object_entries apis)
        ++ Initializer.return_true.
Proof.
  unfold writeInitializationFunction, appendFileSync.
  rewrite (forEach_appends Initializer.group_block).
  - unfold Initializer.return_true. now rewrite <- ?app_assoc.
  - intros [group functions] o. unfold Initializer.group_block. cbn [fst snd].
    rewrite (forEach_appends (fun func => Initializer.resolve group (name func))).
    + now rewrite <- ?app_assoc.
    + intros func o'. reflexivity.
Qed.

Lemma generateHeader_text (dir : tree) (apis : obj (list Api))
  (events : obj (list Event)) (old : file) :
  collectAPIs dir = Ok apis ->
  generateHeader dir (Some events) old = (header_text apis events, Completed).
Proof.
  intros H. unfold generateHeader. rewrite H. f_equal.
  rewrite writeEntityTypeDefinitions_text.
  unfold writeFooter, appendFileSync.
  rewrite writeInitializationFunction_text, writeMainAPIStruct_text,
    writeStructDefinitions_text, writeEventDefinitions_text,
    writeFunctionTypeDefinitions_text.
  unfold header_text, footer. now rewrite <- ?app_assoc.
Qed.

End WholeHeader.

(** X15: a completed run writes the sections of the header in one fixed
    order, whatever the output file held before: the preamble, the entity
    aliases, the typedefs of every group, the event definitions, the
    dispatch table of every group, the root record, the initializer and
    the footer. *)
Theorem header_of_completed_run (dir : Header.tree) (apis : obj (list Api))
  (events : obj (list Header.Event)) (old : file) :
  Header.collectAPIs dir = Ok apis ->
  Header.generateHeader dir (Some events) old
  = (header_text apis events, Header.Completed).
Proof. exact (generateHeader_text dir apis events old). Qed.

(** The run on [two_group_tree] with an empty event schema. *)
Lemma header_of_completed_run_witness :
  Header.generateHeader two_group_tree (Some []) (js "stale contents")
  = (header_text two_group_model [], Header.Completed).
Proof.
  exact (header_of_completed_run two_group_tree two_group_model []
           (js "stale contents") eq_refl).
Defined.


(** X17: in the header of every completed run, each record of the model
    is declared before it is used: its function-pointer typedef comes
    first, then the field of that type in the dispatch table of its group,
    then the field of the root record for the group, then the assignment
    of the resolved symbol to the field. *)
Theorem declared_before_use (dir : Header.tree) (apis : obj (list Api))
  (events : obj (list Header.Event)) (old : file)
  (g : jsstring) (fs : list Api) (f : Api) :
  Header.collectAPIs dir = Ok apis ->
  In (g, fs) (Object_entries apis) -> In f fs ->
  exists a b c d e,
    fst (Header.generateHeader dir (Some events) old)
    = a ++ typedef_line g f ++ b ++ field_line g f ++ c
        ++ table_line g ++ d ++ Initializer.resolve g (name f) ++ e.
Proof.
  intros H Hg Hf. rewrite (generateHeader_text dir apis events old H).
  cbn [fst]. unfold header_text, main_struct.
  assert (Hk : In g (Object_keys apis)).
  { unfold Object_keys. apply in_map_iff. now exists (g, fs). }
  destruct (flat_map_In typedef_block _ _ Hg) as [t1 [t2 ->]].
  destruct (flat_map_In struct_block _ _ Hg) as [s1 [s2 ->]].
  destruct (flat_map_In Initializer.group_block _ _ Hg) as [i1 [i2 ->]].
  destruct (flat_map_In table_line _ _ Hk) as [m1 [m2 ->]].
  unfold typedef_block, struct_block, Initializer.group_block. cbn [fst snd].
  destruct (flat_map_In (typedef_line g) _ _ Hf) as [t3 [t4 ->]].
  destruct (flat_map_In (field_line g) _ _ Hf) as [s3 [s4 ->]].
  destruct (flat_map_In (fun func => Initializer.resolve g (name func)) _ _ Hf)
    as [i3 [i4 ->]].
  exists (Header.HEADER_TEMPLATE ++ entity_aliases ++ t1 ++ nl ++ nl
          ++ js "// " ++ g ++ js " function type definitions" ++ nl ++ t3).
  exists (t4 ++ t2 ++ flat_map event_group_text (Object_entries events) ++ nl
          ++ s1 ++ nl ++ js "// " ++ g ++ js " functions" ++ nl
          ++ js "struct " ++ g ++ js "_t {" ++ nl ++ s3).
  exists (s4 ++ js "};" ++ nl ++ s2 ++ nl ++ js "// All APIs" ++ nl
          ++ js "struct OMPAPI_t {" ++ nl ++ m1).
  exists (m2 ++ js "};" ++ nl ++ Header.INITIALIZER_HEAD ++ i1 ++ nl
          ++ js "    // Retrieve " ++ g ++ js " functions" ++ nl ++ i3).
  exists (i4 ++ i2 ++ Initializer.return_true ++ footer).
  now rewrite <- ?app_assoc.
Qed.

(** The record [Actor_Create] of the run on [two_group_tree]. *)
Lemma declared_before_use_witness :
  exists a b c d e,
    fst (Header.generateHeader two_group_tree (Some []) [])
    = a ++ js "typedef void* (" ++ js "*Actor_Create_t)(int id);" ++ nl
        ++ b ++ js "    Actor_Create_t Create;" ++ nl
        ++ c ++ js "    struct Actor_t Actor;" ++ nl
        ++ d ++ js "    ompapi->Actor.Create = (Actor_Create_t)LIBRARY_GET_ADDR(capi_lib, "
             ++ dq ++ js "Actor_Create" ++ dq ++ js ");" ++ nl
        ++ e.
Proof.
  destruct (declared_before_use two_group_tree two_group_model [] []
              (js "Actor")
              [ {| ret := Str (js "void*"); name := js "Create";
                   params := [ {| param_name := js "id";
                                  param_type := Str (js "int") |} ] |} ]
              {| ret := Str (js "void*"); name := js "Create";
                 params := [ {| param_name := js "id";
                                param_type := Str (js "int") |} ] |}
              eq_refl (or_intror (or_introl eq_refl)) (or_introl eq_refl))
    as [a [b [c [d [e H]]]]].
  exists a, b, c, d, e. exact H.
Defined.

(** ** The header model and the JSON document *)

Section TwoDocuments.

Lemma parsers_same_record (line : jsstring) :
  match Header.parseAPILine line, Json.parseAPILine line with
  | Ok h, Ok j => same_record h j
  | TypeError, TypeError => True
  | _, _ => False
  end.
Proof.
  pose proof (parsers_related line) as H.
  destruct (Header.parseAPILine line) as [h|],
           (Json.parseAPILine line) as [j|]; try exact H.
  destruct H as [Hc [_ [Hp [Hu Hn]]]].
  split; [exact Hc|]. repeat split; auto; now apply Hn.
Qed.

Lemma processFile_same (lines : list jsstring) :
  match Header.processFile lines, Json.processFile lines with
  | Ok hs, Ok js => Forall2 same_record hs js
  | TypeError, TypeError => True
  | _, _ => False
  end.
Proof.
  induction lines as [|line lines IH];
    cbn [Header.processFile Json.processFile]; [constructor|].
  change Json.API_PREFIX with Header.API_PREFIX.
  destruct (startsWith line Header.API_PREFIX); [|exact IH].
  pose proof (parsers_same_record line) as Hl.
  destruct (Header.parseAPILine line) as [h|],
           (Json.parseAPILine line) as [j|]; try contradiction;
    cbn [bind]; [|exact I].
  destruct (Header.processFile lines) as [hs|],
           (Json.processFile lines) as [js|]; try contradiction;
    cbn [bind]; [|exact I].
  now constructor.
Qed.

Lemma own_same (o d : obj (list Api)) (g : jsstring) :
  Forall2 same_group o d ->
  match own o g, own d g with
  | Some l, Some l' => Forall2 (same_function g) l l'
  | None, None => True
  | _, _ => False
  end.
Proof.
  induction 1 as [|[k l] [k' l'] o d [Hk Hl] Hod IH]; [exact I|].
  cbn [fst snd] in Hk, Hl. subst k'. cbn [own].
  destruct (Str.eqb k g) eqn:E; [|exact IH].
  apply eqb_eq in E. now subst.
Qed.

Lemma update_same (o d : obj (list Api)) (g : jsstring) (l l' : list Api) :
  Forall2 same_group o d -> Forall2 (same_function g) l l' ->
  Forall2 same_group (update o g l) (update d g l').
Proof.
  intros Hod Hl.
  induction Hod as [|[k v] [k' v'] o d [Hk Hv] Hod IH]; [constructor|].
  cbn [fst snd] in Hk, Hv. subst k'. cbn [update].
  destruct (Str.eqb k g) eqn:E.
  - apply eqb_eq in E. subst k. constructor; [|exact Hod]. now split.
  - constructor; [now split|exact IH].
Qed.

Lemma define_same (o d : obj (list Api)) (g : jsstring) (l l' : list Api) :
  Forall2 same_group o d -> Forall2 (same_function g) l l' ->
  Forall2 same_group (define o g l) (define d g l').
Proof.
  intros Hod Hl.
  assert (Hnew : same_group (g, l) (g, l')) by now split.
  destruct (arrayIndex g) as [n|] eqn:Ha.
  - induction Hod as [|[k v] [k' v'] o d [Hk Hv] Hod IH].
    + simpl. rewrite Ha. now constructor.
    + cbn [fst snd] in Hk, Hv. subst k'. cbn [define]. rewrite Ha.
      assert (Hkv : same_group (k, v) (k, v')) by now split.
      destruct (arrayIndex k) as [n0|].
      * destruct (n0 <? n)%N; repeat constructor; auto.
      * repeat constructor; auto.
  - assert (Hd : forall (x : obj (list Api)) (y : list Api),
               define x g y = x ++ [(g, y)])
      by (intros x y; destruct x; simpl; now rewrite Ha).
    rewrite !Hd. apply Forall2_app; [exact Hod|now constructor].
Qed.

Lemma push_api_same (o d : obj (list Api)) (g : jsstring) (a b : Api) :
  Forall2 same_group o d -> same_function g a b ->
  match Header.push_api o g a, Json.push_api d g b with
  | Ok o', Ok d' => Forall2 same_group o' d'
  | TypeError, TypeError => True
  | _, _ => False
  end.
Proof.
  intros Hod Hab. unfold Header.push_api, Json.push_api.
  pose proof (own_same o d g Hod) as Hown.
  destruct (own o g) as [l|], (own d g) as [l'|]; try contradiction.
  - apply update_same; [exact Hod|].
    apply Forall2_app; [exact Hown|now constructor].
  - destruct (inherited g); [exact I|].
    apply define_same; [exact Hod|now constructor].
Qed.

Lemma push_all_same (hs : list Header.Parsed) (js : list Json.Parsed)
  (o d : obj (list Api)) :
  Forall2 same_record hs js -> Forall2 same_group o d ->
  match Header.push_all o hs, Json.push_all d js with
  | Ok o', Ok d' => Forall2 same_group o' d'
  | TypeError, TypeError => True
  | _, _ => False
  end.
Proof.
  intros Hrecs. revert o d.
  induction Hrecs as [|h j hs js [Hc Hf] Hrecs IH]; intros o d Hod;
    cbn [Header.push_all Json.push_all]; [exact Hod|].
  rewrite Hc.
  pose proof (push_api_same o d (Header.group h) _ _ Hod Hf) as Hp.
  destruct (Header.push_api o (Header.group h) (Header.api h)) as [o1|],
           (Json.push_api d (Header.group h) (Json.api j)) as [d1|];
    try contradiction; cbn [bind]; [|exact I].
  now apply IH.
Qed.

Lemma files_same (files : Header.tree) (o d : obj (list Api)) :
  Forall2 same_group o d ->
  match Header.collect_files files o, Json.build_files files d with
  | Ok o', Ok d' => Forall2 same_group o' d'
  | TypeError, TypeError => True
  | _, _ => False
  end.
Proof.
  revert o d. induction files as [|[path lines] files IH]; intros o d Hod;
    cbn [Header.collect_files Json.build_files]; [exact Hod|].
  pose proof (processFile_same lines) as Hl.
  destruct (Header.processFile lines) as [hs|],
           (Json.processFile lines) as [js|]; try contradiction;
    cbn [bind]; [|exact I].
  pose proof (push_all_same hs js o d Hl Hod) as Hp.
  destruct (Header.push_all o hs) as [o1|],
           (Json.push_all d js) as [d1|]; try contradiction;
    cbn [bind]; [|exact I].
  now apply IH.
Qed.

End TwoDocuments.

(** X18: on every tree the header generator and the JSON emitter fail
    together or succeed together, and then the grouped model and the JSON
    document describe the same functions: the same groups in the same
    order, in each group as many functions in the same order, each with
    the same parameter names, the flat name of the document being the
    group, an underscore and the name of the header record (or the group
    alone for a full name without underscore). *)
Theorem documents_agree (dir : Header.tree) :
  match Header.collectAPIs dir, Json.buildAPIDocumentation dir with
  | Ok o, Ok d => Forall2 same_group (Object_entries o) (Object_entries d)
  | TypeError, TypeError => True
  | _, _ => False
  end.
Proof.
  unfold Header.collectAPIs, Json.buildAPIDocumentation, Json.getAllAPIFiles.
  apply files_same. constructor.
Qed.

(** The JSON document of [two_group_tree]. *)
Example document_of_two_group_tree :
  option_map (map (fun e => (fst e, map name (snd e))))
    (match Json.buildAPIDocumentation two_group_tree with
     | Ok d => Some d
     | TypeError => None
     end)
  = Some [ (js "Vehicle", [js "Vehicle_Create"; js "Vehicle_Destroy"]);
           (js "Actor", [js "Actor_Create"]) ].
Proof. reflexivity. Qed.

(** ** Well-formed lines in both parsers *)

Section WellFormedLines.

Import Grammar.

Lemma pair_parts (p : jsstring * jsstring) :
  token (fst p) = true -> token (snd p) = true ->
  split (trim (pair_text p)) (js " ") = [fst p; snd p].
Proof.
  destruct p as [ty nm]. cbn [fst snd]. intros Hty Hnm.
  apply token_word in Hty as [Hty0 Hty], Hnm as [Hnm0 Hnm].
  assert (Htrim : trim (pair_text (ty, nm)) = ty ++ js " " ++ nm).
  { unfold pair_text. cbn [fst snd].
    destruct ty as [|c ty]; [congruence|].
    destruct (exists_last Hnm0) as [n0 [d ->]].
    replace ((c :: ty) ++ js " " ++ n0 ++ [d])
      with (c :: (ty ++ js " " ++ n0) ++ [d])
      by (simpl; now rewrite <- !app_assoc).
    apply trim_ends.
    - apply plain_not_special, (word_plain _ _ Hty). now left.
    - apply plain_not_special, (word_plain _ _ Hnm).
      apply in_or_app. right. now left. }
  rewrite Htrim, split_two_words by (now apply word_notin).
  f_equal. apply (split_none 32%N []). now apply word_notin.
Qed.

Lemma json_parse_params_text (ps : list (jsstring * jsstring)) :
  forallb (fun p => token (fst p) && token (snd p)) ps = true ->
  filter_Boolean (map Json.parseParameter (split (params_text ps) (js ", ")))
  = map json_normalized ps.
Proof.
  intros Hps. destruct ps as [|p ps]; [reflexivity|].
  unfold params_text.
  rewrite (split_join 44%N [32%N]).
  - rewrite forallb_forall in Hps.
    remember (p :: ps) as l eqn:El. clear El.
    induction l as [|q l IH]; [reflexivity|].
    assert (Hq := Hps q (or_introl eq_refl)).
    apply andb_true_iff in Hq as [Hty Hnm].
    cbn [map]. unfold Json.parseParameter at 1.
    rewrite (pair_parts q Hty Hnm). cbn [length Nat.ltb Nat.leb nth].
    cbn [filter_Boolean]. f_equal.
    apply IH. intros x Hx. apply Hps. now right.
  - discriminate.
  - apply Forall_forall. intros x Hx Hc.
    apply in_map_iff in Hx as [q [<- Hq]].
    rewrite forallb_forall in Hps. specialize (Hps q Hq).
    apply andb_true_iff in Hps as [Hty Hnm].
    destruct (pair_text_chars q _ Hty Hnm Hc) as [?|?]; discriminate.
Qed.

End WellFormedLines.

(** X19: the JSON emitter parses every well-formed annotation line to the
    record whose component is the first underscore-separated segment of
    the full name, whose flat name is the full name unchanged, and whose
    return type and parameter types are normalized through the table of
    the JSON emitter, the parameters standing in the order of the line. *)
Theorem json_parse_of_well_formed_line (fullName returnType : jsstring)
  (ps : list (jsstring * jsstring)) :
  Grammar.well_formed fullName returnType ps = true ->
  Json.parseAPILine (Grammar.annotation fullName returnType ps)
  = Ok {| Json.component := nth 0 (split fullName (js "_")) [];
          Json.api := {| ret := Json.convertTypeName (Str returnType);
                         name := fullName;
                         params := map json_normalized ps |} |}.
Proof.
  intros Hwf. unfold Grammar.well_formed in Hwf.
  apply andb_true_iff in Hwf as [Hwf Hps].
  apply andb_true_iff in Hwf as [Hname Hret].
  destruct (params_text_no_paren ps Hps) as [Hopen Hclose].
  destruct (content_locals fullName returnType (Grammar.params_text ps)
              Hname Hret Hopen Hclose) as [rest [l [Hsplit [Hrt Hregion]]]].
  unfold Json.parseAPILine, Grammar.annotation, Grammar.line_of.
  change Json.API_PREFIX with Header.API_PREFIX.
  rewrite replace_prefix, Hsplit. cbv zeta.
  now rewrite Hrt, Hregion, (json_parse_params_text ps Hps).
Qed.

(** The line
    [OMP_CAPI(Player_GetName, int(objectPtr player, OutputStringViewPtr name))]. *)
Lemma json_parse_of_well_formed_line_witness :
  Json.parseAPILine
    (js "OMP_CAPI(Player_GetName, int(objectPtr player, OutputStringViewPtr name))")
  = Ok {| Json.component := js "Player";
          Json.api :=
            {| ret := Str (js "int");
               name := js "Player_GetName";
               params :=
                 [ {| param_name := js "player";
                      param_type := Str (js "void*") |};
                   {| param_name := js "name";
                      param_type := Str (js "CAPIStringView*") |} ] |} |}.
Proof.
  exact (json_parse_of_well_formed_line (js "Player_GetName") (js "int")
           [ (js "objectPtr", js "player");
             (js "OutputStringViewPtr", js "name") ] eq_refl).
Defined.

(** X20: on a well-formed annotation line whose full name is [G_N], with
    no underscore in [G], the header parser returns the group [G] and the
    name [N], however many underscores [N] holds, with the normalized
    return type and the normalized parameters of the line. *)
Theorem group_and_name_of_well_formed_line (G N returnType : jsstring)
  (ps : list (jsstring * jsstring)) :
  Grammar.well_formed (G ++ js "_" ++ N) returnType ps = true ->
  ~ In 95%N G ->
  Header.parseAPILine (Grammar.annotation (G ++ js "_" ++ N) returnType ps)
  = Ok {| Header.group := G;
          Header.api :=
            {| ret := Header.convertFunctionArgType (Str returnType);
               name := N;
               params := map normalized ps |} |}.
Proof.
  intros Hwf HG.
  destruct (parse_annotation _ returnType ps Hwf) as [g [nameParts [Es Hr]]].
  rewrite Hr.
  change (js "_") with (95%N :: []) in Es.
  rewrite (split_first 95%N [] G N HG) in Es.
  injection Es as <- <-.
  change (js "_") with (95%N :: []).
  now rewrite (join_split 95%N [] N).
Qed.

(** The line [OMP_CAPI(Actor_Get_Facing_Angle, float(objectPtr actor))]. *)
Lemma group_and_name_of_well_formed_line_witness :
  Header.parseAPILine
    (js "OMP_CAPI(Actor_Get_Facing_Angle, float(objectPtr actor))")
  = Ok {| Header.group := js "Actor";
          Header.api :=
            {| ret := Str (js "float");
               name := js "Get_Facing_Angle";
               params := [ {| param_name := js "actor";
                              param_type := Str (js "void*") |} ] |} |}.
Proof.
  apply (group_and_name_of_well_formed_line (js "Actor")
           (js "Get_Facing_Angle") (js "float")
           [ (js "objectPtr", js "actor") ] eq_refl).
  vm_compute. intuition discriminate.
Defined.
